(** * Conjugate gradient solver of [conjgrad/solve.go]

    A shallow embedding of [SolveStoppable], [SolvePrec], [Solve],
    [allZero] and [greatestValue], generic in the arithmetic of the
    vector entries, with two instances of that arithmetic: IEEE 754
    binary64 (Go's [float64], through the Standard Library's executable
    [SpecFloat] specification) and the canonical rationals [Qc] (exact,
    ideal arithmetic). *)

From Stdlib Require Import List Bool Arith ZArith Lia.
From Stdlib Require Import QArith Qcanon Qcabs Lqa.
From Stdlib Require Import Ring Setoid.
From Stdlib Require Import Floats.SpecFloat.
Import ListNotations.

Close Scope Qc_scope.
Close Scope Q_scope.
Open Scope nat_scope.

Set Implicit Arguments.

(** ** The arithmetic the solver uses on vector entries

    Everything [solve.go] does with a [float64]: the literals [0] and
    [-1] (the latter as [fneg fone]), [+], [*], [/], unary [-],
    [math.Abs], [math.Max], [<=] and [!=]. *)

Class Scalar (F : Type) : Type := {
  fzero : F;
  fone : F;
  fadd : F -> F -> F;
  fmul : F -> F -> F;
  fdiv : F -> F -> F;
  fneg : F -> F;
  mathAbs : F -> F;
  mathMax : F -> F -> F;
  fle : F -> F -> bool;
  fne : F -> F -> bool
}.

(** ** Package [linalg]: dense vectors *)

Module linalg.

(** [type Vector []float64]. *)
Definition Vector (F : Type) : Type := list F.

Section Vectors.
Context {F : Type} `{Scalar F}.

(** Modelled from the spec: [linalg.Vector.Copy] is not among the
    sources; the spec lists "copy" among the vector primitives.  On
    values a copy is the vector itself. *)
Definition Copy (v : Vector F) : Vector F := v.

(** Modelled from the spec: [linalg.Vector.Scale] is not among the
    sources; "in-place scale-by-scalar", whose result is the receiver. *)
Definition Scale (v : Vector F) (c : F) : Vector F :=
  map (fun x => fmul x c) v.

(** Modelled from the spec: [linalg.Vector.Add] is not among the
    sources; "in-place add", "element-wise add (accumulate)",
    "fixed-length, no resizing": the receiver keeps its length and
    accumulates the entries of the argument. *)
Fixpoint Add (v v1 : Vector F) : Vector F :=
  match v, v1 with
  | x :: v', y :: v1' => fadd x y :: Add v' v1'
  | _, _ => v
  end.

(** Modelled from the spec: [linalg.Vector.Dot] is not among the
    sources; "dot product (sum of element-wise products)", accumulated
    from [0] in index order. *)
Definition Dot (v v1 : Vector F) : F :=
  fold_left (fun acc p => fadd acc (fmul (fst p) (snd p)))
            (combine v v1) fzero.

(** [make(linalg.Vector, n)]: [n] entries, each the zero value. *)
Definition make (n : nat) : Vector F := repeat fzero n.
End Vectors.
End linalg.

(** ** Package [conjgrad] *)

Module conjgrad.
Import linalg.

(** Modelled from the spec: the interface [LinTran] is declared outside
    the sources; the spec has it report "a fixed dimension n" and map
    "an input vector of length n to an output vector of length n", as a
    pure function: the result is a vector of its own, which shares no
    storage with the argument. *)
Record LinTran (F : Type) : Type := mkLinTran {
  Dim : nat;
  Apply : Vector F -> Vector F
}.

(** The cancellation channel [cancelChan <-chan struct{}] as the solver
    sees it: either the nil channel, or a channel whose environment
    decides, for the [k]-th non-blocking receive of the call, whether
    the receive case is ready (the channel is closed, or holds a
    value). *)
Inductive chan : Type :=
| nilChan : chan
| mkChan (ready : nat -> bool) : chan.

(** [select { case <-c: ...; default: }], the [k]-th of the call: a
    receive from the nil channel is never ready. *)
Definition poll (c : chan) (k : nat) : bool :=
  match c with
  | nilChan => false
  | mkChan ready => ready k
  end.

(** [const residualUpdateFrequency = 20]. *)
Definition residualUpdateFrequency : nat := 20.

Section Solver.
Context {F : Type} `{Scalar F}.

(** [func allZero(v linalg.Vector) bool]. *)
Fixpoint allZero (v : Vector F) : bool :=
  match v with
  | [] => true
  | x :: v' => if fne x fzero then false else allZero v'
  end.

(** [func greatestValue(v linalg.Vector) float64]. *)
Definition greatestValue (v : Vector F) : F :=
  fold_left (fun max x => mathMax max (mathAbs x)) v fzero.

(** The local variables of [SolveStoppable] that live across
    iterations. *)
Record state : Type := mkState {
  conjVec : Vector F;
  residual : Vector F;
  solution : Vector F;
  lastResidualDot : F
}.

(** The four ways out of the loop: the two [break]s, the [return]
    inside the [select], and the loop condition [i < t.Dim()]. *)
Inductive exit : Type :=
| Converged
| Degenerate
| Cancelled
| Exhausted.

(** What one pass through the loop body does to the control flow. *)
Inductive step : Type :=
| Break (e : exit) (st : state)
| Return (st : state)
| Next (st : state).

Variable t : LinTran F.
Variable b : Vector F.
Variable prec : F.
Variable cancelChan : chan.

(** Lines 32-33, with the zero values of the declared variables. *)
Definition init : state :=
  {| conjVec := [];
     residual := Copy b;
     solution := make (Dim t);
     lastResidualDot := fzero |}.

(** Lines 39-47: the new search direction. *)
Definition direction (i : nat) (st : state) : state :=
  if Nat.eqb i 0 then
    let conjVec' := Copy (residual st) in
    {| conjVec := conjVec';
       residual := residual st;
       solution := solution st;
       lastResidualDot := Dot conjVec' conjVec' |}
  else
    let residualDot := Dot (residual st) (residual st) in
    let projAmount := fdiv (fneg residualDot) (lastResidualDot st) in
    {| conjVec := Add (Copy (residual st))
                      (Scale (conjVec st) (fneg projAmount));
       residual := residual st;
       solution := solution st;
       lastResidualDot := residualDot |}.

(** Line 51. *)
Definition optimalDistance (st : state) : F :=
  fdiv (Dot (conjVec st) (residual st))
       (Dot (conjVec st) (Apply t (conjVec st))).

(** The condition of line 54. *)
Definition recompute (i : nat) : bool :=
  negb (Nat.eqb i 0) && Nat.eqb (i mod residualUpdateFrequency) 0.

(** Lines 51-58: the step along the search direction. *)
Definition advance (i : nat) (st : state) : state :=
  let od := optimalDistance st in
  let solution' := Add (solution st) (Scale (Copy (conjVec st)) od) in
  {| conjVec := conjVec st;
     residual :=
       if recompute i
       then Add (Scale (Apply t solution') (fneg fone)) b
       else Add (residual st) (Scale (Apply t (conjVec st)) (fneg od));
     solution := solution';
     lastResidualDot := lastResidualDot st |}.

(** Lines 36-64: the loop body at index [i]. *)
Definition body (i : nat) (st : state) : step :=
  if fle (greatestValue (residual st)) prec then Break Converged st
  else
    let st1 := direction i st in
    if allZero (conjVec st1) then Break Degenerate st1
    else
      let st2 := advance i st1 in
      if poll cancelChan i then Return st2 else Next st2.

(** The [for] loop from index [i] on, with [fuel = t.Dim() - i] passes
    left.  Next to the final state it reports the way out and the
    number of passes that ran through to the [select]. *)
Fixpoint loop (fuel i : nat) (st : state) : exit * nat * state :=
  match fuel with
  | 0 => (Exhausted, i, st)
  | S fuel' =>
    match body i st with
    | Break e st' => (e, i, st')
    | Return st' => (Cancelled, S i, st')
    | Next st' => loop fuel' (S i) st'
    end
  end.

Definition run : exit * nat * state := loop (Dim t) 0 init.

(** [func SolveStoppable(t, b, prec, cancelChan) linalg.Vector]. *)
Definition SolveStoppable : Vector F := solution (snd run).

(** The state in which control reaches the loop header for index [i],
    when it does. *)
Fixpoint stateAt (i : nat) : option state :=
  match i with
  | 0 => Some init
  | S j =>
    match stateAt j with
    | Some st =>
      if Nat.ltb j (Dim t) then
        match body j st with
        | Next st' => Some st'
        | _ => None
        end
      else None
    | None => None
    end
  end.
End Solver.

(** [func SolvePrec(t, b, prec) linalg.Vector]. *)
Definition SolvePrec {F : Type} `{Scalar F}
  (t : LinTran F) (b : Vector F) (prec : F) : Vector F :=
  SolveStoppable t b prec nilChan.

(** [func Solve(t, b) linalg.Vector]. *)
Definition Solve {F : Type} `{Scalar F}
  (t : LinTran F) (b : Vector F) : Vector F :=
  SolvePrec t b fzero.

End conjgrad.

(** ** Go's [float64]: IEEE 754 binary64 *)

Module float64.

Definition t : Type := spec_float.

Definition prec : Z := 53.
Definition emax : Z := 1024.

(** [math.IsInf(x, 1)]. *)
Definition IsInf1 (x : t) : bool :=
  match x with
  | S754_infinity false => true
  | _ => false
  end.

(** [math.IsNaN(x)]. *)
Definition IsNaN (x : t) : bool :=
  match x with
  | S754_nan => true
  | _ => false
  end.

(** [math.Signbit(x)], for the values on which [math.Max] asks. *)
Definition Signbit (x : t) : bool :=
  match x with
  | S754_zero s | S754_infinity s | S754_finite s _ _ => s
  | S754_nan => false
  end.

(** [math.Max(x, y)], with the special cases of Go's [math] package:
    [Max(x, +Inf) = Max(+Inf, x) = +Inf], [Max(x, NaN) = Max(NaN, x) =
    NaN], [Max(+0, y) = Max(y, +0) = +0] for [y] either zero,
    [Max(-0, -0) = -0]. *)
Definition Max (x y : t) : t :=
  if IsInf1 x || IsInf1 y then S754_infinity false
  else if IsNaN x || IsNaN y then S754_nan
  else if SFeqb x (S754_zero false) && SFeqb x y then
    (if Signbit x then y else x)
  else if SFltb y x then x else y.

(** The [float64] nearest to the integer [z]. *)
Definition ofZ (z : Z) : t := binary_normalize prec emax z 0 false.

(** The [float64] nearest to [m * 2^e]. *)
Definition ofBits (m e : Z) : t := binary_normalize prec emax m e false.

(** Neither an infinity nor a NaN. *)
Definition finite (x : t) : bool :=
  match x with
  | S754_zero _ | S754_finite _ _ _ => true
  | S754_infinity _ | S754_nan => false
  end.

#[global] Instance scalar : Scalar t := {|
  fzero := S754_zero false;
  fone := ofZ 1;
  fadd := SFadd prec emax;
  fmul := SFmul prec emax;
  fdiv := SFdiv prec emax;
  fneg := SFopp;
  mathAbs := SFabs;
  mathMax := Max;
  fle := SFleb;
  fne := fun x y => negb (SFeqb x y)
|}.

End float64.

(** ** Exact arithmetic: the canonical rationals *)

Module exact.

Definition t : Type := Qc.

(** [if x > y { return x }; return y], all there is to [math.Max]
    without infinities, NaNs and signed zeros. *)
Definition Max (x y : t) : t := if Qle_bool x y then y else x.

(** Division by zero, which ideal arithmetic leaves undefined, is [0]
    here ([Qcinv 0 = 0]); nothing below that is stated for this
    instance divides by zero. *)
#[global] Instance scalar : Scalar t := {|
  fzero := Q2Qc 0;
  fone := Q2Qc 1;
  fadd := Qcplus;
  fmul := Qcmult;
  fdiv := Qcdiv;
  fneg := Qcopp;
  mathAbs := Qcabs;
  mathMax := Max;
  fle := fun x y => Qle_bool x y;
  fne := fun x y => negb (Qeq_bool x y)
|}.

(** The rational [z / 1]. *)
Definition ofZ (z : Z) : t := Q2Qc (inject_Z z).

End exact.

(** ** A dense matrix as a linear operator

    The operators of the spec's concrete scenarios: the rows of a
    matrix, applied by taking the dot product of each row with the
    argument. *)

Definition MatTran {F : Type} `{Scalar F}
  (m : list (linalg.Vector F)) : conjgrad.LinTran F :=
  {| conjgrad.Dim := length m;
     conjgrad.Apply := fun v => map (fun row => linalg.Dot row v) m |}.

Import linalg conjgrad.


(** ** Specification predicates *)

(** The number of times the loop body is entered in a run that leaves
    the loop by [e] with [k] passes run through to the [select]. *)
Definition passes {F : Type} (r : exit * nat * state (F:=F)) : nat :=
  match r with
  | (Converged, k, _) | (Degenerate, k, _) => S k
  | (Cancelled, k, _) | (Exhausted, k, _) => k
  end.

(** What each way out of the loop says about the run: where it
    happened, which test decided it, and which state it leaves. *)
Definition exitSpec {F : Type} `{Scalar F}
  (t : LinTran F) (b : Vector F) (prec : F) (c : chan)
  (r : exit * nat * state) : Prop :=
  match r with
  | (Converged, k, st) =>
      k < Dim t /\ stateAt t b prec c k = Some st /\
      fle (greatestValue (residual st)) prec = true
  | (Degenerate, k, st) =>
      exists st0,
        k < Dim t /\ stateAt t b prec c k = Some st0 /\
        fle (greatestValue (residual st0)) prec = false /\
        st = direction k st0 /\ allZero (conjVec st) = true /\
        solution st = solution st0
  | (Cancelled, k, st) =>
      exists j st0,
        k = S j /\ j < Dim t /\ stateAt t b prec c j = Some st0 /\
        fle (greatestValue (residual st0)) prec = false /\
        allZero (conjVec (direction j st0)) = false /\
        poll c j = true /\
        st = advance t b j (direction j st0)
  | (Exhausted, k, st) =>
      k = Dim t /\ stateAt t b prec c k = Some st
  end.

(** The operator is linear on the vectors of its dimension, and maps
    them to vectors of its dimension. *)
Definition linear {F : Type} `{Scalar F} (t : LinTran F) : Prop :=
  (forall v, length v = Dim t -> length (Apply t v) = Dim t) /\
  (forall u v, length u = Dim t -> length v = Dim t ->
     Apply t (Add u v) = Add (Apply t u) (Apply t v)) /\
  (forall v c, length v = Dim t ->
     Apply t (Scale v c) = Scale (Apply t v) c).

(** [residual == b - t.Apply(solution)], in the form in which line 55
    computes the right-hand side. *)
Definition residualInvariant {F : Type} `{Scalar F}
  (t : LinTran F) (b : Vector F) (st : state) : Prop :=
  residual st = Add (Scale (Apply t (solution st)) (fneg fone)) b.

(** The laws of exact arithmetic the solver's invariant rests on: the
    entries form a commutative ring under the solver's [+], [*] and
    unary [-]. *)
Definition idealArithmetic (F : Type) `{Scalar F} : Prop :=
  ring_theory fzero fone fadd fmul (fun x y => fadd x (fneg y)) fneg
              (@eq F).
Arguments idealArithmetic F {_}.

(** The first [n] entries of a [float64] vector exist and are all
    infinities or NaNs. *)
Definition nonfiniteUpTo (n : nat) (v : Vector float64.t) : bool :=
  Nat.leb n (length v) &&
  forallb (fun x => negb (float64.finite x)) (firstn n v).

(** The sign bit of a [float64] is clear, or the value is a NaN. *)
Definition unsigned (x : float64.t) : Prop :=
  match x with
  | S754_zero s | S754_infinity s | S754_finite s _ _ => s = false
  | S754_nan => True
  end.

(** ** The calls of [t.Apply]

    The vectors a call hands to [t.Apply], in the order of the calls.
    A pass that gets past both [break]s applies the operator twice:
    to the new direction in line 51, and then to the advanced solution
    in line 55 or to the direction once more in line 57. *)

Definition applied {F : Type} `{Scalar F}
  (t : LinTran F) (b : Vector F) (i : nat) (d : state)
  : list (Vector F) :=
  [conjVec d;
   if recompute i then solution (advance t b i d) else conjVec d].

Fixpoint applications {F : Type} `{Scalar F}
  (t : LinTran F) (b : Vector F) (prec : F) (c : chan)
  (fuel i : nat) (st : state) : list (Vector F) :=
  match fuel with
  | 0 => []
  | S fuel' =>
    match body t b prec c i st with
    | Break _ _ => []
    | Return _ => applied t b i (direction i st)
    | Next st' =>
        applied t b i (direction i st)
        ++ applications t b prec c fuel' (S i) st'
    end
  end.

(** * Properties *)

(** ** Control flow of the loop *)

Section ControlFlow.
Context {F : Type} `{Scalar F}.
Variable t : LinTran F.
Variable b : Vector F.
Variable prec : F.

(** The three shapes of a pass that got past the convergence check. *)
Lemma body_cases (c : chan) (i : nat) (st : state) :
  fle (greatestValue (residual st)) prec = false ->
  let d := direction i st in
  (allZero (conjVec d) = true /\ body t b prec c i st = Break Degenerate d) \/
  (allZero (conjVec d) = false /\ poll c i = true /\
   body t b prec c i st = Return (advance t b i d)) \/
  (allZero (conjVec d) = false /\ poll c i = false /\
   body t b prec c i st = Next (advance t b i d)).
Proof.
  intros Hconv d. unfold body. rewrite Hconv. fold d.
  destruct (allZero (conjVec d)); [left; split; reflexivity|].
  destruct (poll c i); [right; left | right; right]; repeat split.
Qed.

Lemma body_converged (c : chan) (i : nat) (st : state) :
  fle (greatestValue (residual st)) prec = true ->
  body t b prec c i st = Break Converged st.
Proof. intros Hconv. unfold body. now rewrite Hconv. Qed.

(** Inverting the outcome of a pass. *)
Lemma body_Next_inv (c : chan) (i : nat) (st st' : state) :
  body t b prec c i st = Next st' ->
  fle (greatestValue (residual st)) prec = false /\
  allZero (conjVec (direction i st)) = false /\
  poll c i = false /\
  st' = advance t b i (direction i st).
Proof.
  unfold body.
  destruct (fle _ prec); [discriminate|].
  destruct (allZero _); [discriminate|].
  destruct (poll c i); [discriminate|].
  intros [= <-]. repeat split.
Qed.

Lemma body_Return_inv (c : chan) (i : nat) (st st' : state) :
  body t b prec c i st = Return st' ->
  fle (greatestValue (residual st)) prec = false /\
  allZero (conjVec (direction i st)) = false /\
  poll c i = true /\
  st' = advance t b i (direction i st).
Proof.
  unfold body.
  destruct (fle _ prec); [discriminate|].
  destruct (allZero _); [discriminate|].
  destruct (poll c i); [|discriminate].
  intros [= <-]. repeat split.
Qed.

Lemma body_Break_inv (c : chan) (i : nat) (e : exit) (st st' : state) :
  body t b prec c i st = Break e st' ->
  (e = Converged /\ st' = st /\
   fle (greatestValue (residual st)) prec = true) \/
  (e = Degenerate /\ st' = direction i st /\
   fle (greatestValue (residual st)) prec = false /\
   allZero (conjVec (direction i st)) = true).
Proof.
  unfold body.
  destruct (fle _ prec) eqn:Hconv.
  - intros [= <- <-]. left. repeat split.
  - destruct (allZero _) eqn:Hz.
    + intros [= <- <-]. right. repeat split; assumption.
    + destruct (poll c i); discriminate.
Qed.

(** One unfolding of the loop. *)
Lemma loop_S (c : chan) (fuel i : nat) (st : state) :
  loop t b prec c (S fuel) i st =
  match body t b prec c i st with
  | Break e st' => (e, i, st')
  | Return st' => (Cancelled, S i, st')
  | Next st' => loop t b prec c fuel (S i) st'
  end.
Proof. reflexivity. Qed.

(** The pass consults the channel through [poll c i] alone. *)
Lemma body_poll_ext (c c' : chan) (i : nat) (st : state) :
  poll c i = poll c' i ->
  body t b prec c i st = body t b prec c' i st.
Proof. intros Hp. unfold body. now rewrite Hp. Qed.

Lemma loop_poll_ext (c c' : chan) :
  (forall k, poll c k = poll c' k) ->
  forall fuel i st,
    loop t b prec c fuel i st = loop t b prec c' fuel i st.
Proof.
  intros Hp fuel. induction fuel as [|fuel IH]; intros i st; simpl.
  - reflexivity.
  - rewrite (body_poll_ext c c' i st (Hp i)).
    destruct (body t b prec c' i st); auto.
Qed.

(** A state the header is reached in was reached through the header
    before it. *)
Lemma stateAt_S (c : chan) (i : nat) (st' : state) :
  stateAt t b prec c (S i) = Some st' ->
  exists st, stateAt t b prec c i = Some st /\ i < Dim t /\
             body t b prec c i st = Next st'.
Proof.
  simpl. destruct (stateAt t b prec c i) as [st|]; [|discriminate].
  destruct (Nat.ltb_spec i (Dim t)); [|discriminate].
  destruct (body t b prec c i st) eqn:Hb; try discriminate.
  intros [= <-]. exists st. auto.
Qed.

Lemma stateAt_next (c : chan) (i : nat) (st st' : state) :
  stateAt t b prec c i = Some st -> i < Dim t ->
  body t b prec c i st = Next st' ->
  stateAt t b prec c (S i) = Some st'.
Proof.
  intros Hs Hi Hb. simpl. rewrite Hs.
  destruct (Nat.ltb_spec i (Dim t)); [|lia]. now rewrite Hb.
Qed.

Lemma stateAt_le (c : chan) (i : nat) (st : state) :
  stateAt t b prec c i = Some st -> i <= Dim t.
Proof.
  destruct i; [lia|]. intros Hs.
  destruct (stateAt_S _ _ Hs) as (? & _ & Hlt & _). lia.
Qed.

(** The whole run is the rest of the loop from any header it reaches. *)
Lemma run_from_stateAt (c : chan) (i : nat) (st : state) :
  stateAt t b prec c i = Some st ->
  run t b prec c = loop t b prec c (Dim t - i) i st.
Proof.
  induction i as [|i IH] in st |- *.
  - intros [= <-]. unfold run. now rewrite Nat.sub_0_r.
  - intros Hs. destruct (stateAt_S _ _ Hs) as (st0 & Hs0 & Hlt & Hb).
    rewrite (IH _ Hs0).
    replace (Dim t - i) with (S (Dim t - S i)) by lia.
    simpl. now rewrite Hb.
Qed.

End ControlFlow.

(** ** Termination and the four ways out *)

Section Termination.
Context {F : Type} `{Scalar F}.
Variable t : LinTran F.
Variable b : Vector F.
Variable prec : F.
Variable c : chan.

Lemma direction_solution (i : nat) (st : state) :
  solution (direction i st) = solution st.
Proof. unfold direction. destruct (Nat.eqb i 0); reflexivity. Qed.

Lemma direction_residual (i : nat) (st : state) :
  residual (direction i st) = residual st.
Proof. unfold direction. destruct (Nat.eqb i 0); reflexivity. Qed.

Lemma loop_exitSpec (fuel : nat) :
  forall i st,
    stateAt t b prec c i = Some st -> i + fuel = Dim t ->
    exitSpec t b prec c (loop t b prec c fuel i st).
Proof.
  induction fuel as [|fuel IH]; intros i st Hs Hfuel; simpl.
  - split; [lia | assumption].
  - destruct (body t b prec c i st) as [e st'|st'|st'] eqn:Hb.
    + destruct (body_Break_inv _ _ _ _ _ _ Hb)
        as [(-> & -> & Hconv)|(-> & -> & Hconv & Hz)]; simpl.
      * repeat split; [lia | assumption | assumption].
      * exists st. repeat split; try assumption; try lia.
        apply direction_solution.
    + destruct (body_Return_inv _ _ _ _ _ _ Hb) as (Hconv & Hz & Hp & ->).
      simpl. exists i, st. repeat split; try assumption; lia.
    + apply IH; [|lia].
      apply stateAt_next with (st := st); [assumption | lia | assumption].
Qed.

Lemma loop_passes (fuel : nat) :
  forall i st, passes (loop t b prec c fuel i st) <= i + fuel.
Proof.
  induction fuel as [|fuel IH]; intros i st; simpl.
  - lia.
  - destruct (body t b prec c i st) as [e st'|st'|st'] eqn:Hb.
    + destruct e; simpl; try lia;
        destruct (body_Break_inv _ _ _ _ _ _ Hb)
          as [(? & _)|(? & _)]; discriminate.
    + simpl. lia.
    + specialize (IH (S i) st'). lia.
Qed.

End Termination.

(** C5.  Whatever the operator, the right-hand side, the precision and
    the channel, the loop body is entered at most [t.Dim()] times and
    the call comes back by exactly one of four ways out -- the residual
    within the precision, an all-zero search direction, a cancellation
    seen by the [select], or the index reaching the dimension -- each
    described by [exitSpec], and in each the vector returned is the
    [solution] variable of the final state; the result type has no room
    for an error. *)
Theorem SolveStoppable_terminates_four_ways
  {F : Type} `{Scalar F}
  (t : LinTran F) (b : Vector F) (prec : F) (c : chan) :
  exists (e : exit) (k : nat) (st : state),
    run t b prec c = (e, k, st) /\
    passes (e, k, st) <= Dim t /\ k <= Dim t /\
    exitSpec t b prec c (e, k, st) /\
    SolveStoppable t b prec c = solution st.
Proof.
  destruct (run t b prec c) as [[e k] st] eqn:Hrun.
  exists e, k, st.
  assert (Hp : passes (e, k, st) <= Dim t).
  { rewrite <- Hrun. unfold run.
    apply (loop_passes t b prec c (Dim t) 0 (init t b)). }
  split; [reflexivity|]. split; [assumption|].
  split; [destruct e; simpl in Hp; lia|].
  split.
  - rewrite <- Hrun. unfold run.
    apply loop_exitSpec; [reflexivity | lia].
  - unfold SolveStoppable. now rewrite Hrun.
Qed.

(** ** The wrappers *)

(** C6.  [SolvePrec(t, b, prec)] is [SolveStoppable(t, b, prec, s)] for
    every channel [s] whose receive case is never ready, the nil channel
    among them, and [Solve(t, b)] is [SolvePrec(t, b, 0)]. *)
Theorem SolvePrec_is_SolveStoppable_never_cancelled
  {F : Type} `{Scalar F}
  (t : LinTran F) (b : Vector F) (prec : F) (s : chan)
  (Hnever : forall k, poll s k = false) :
  SolvePrec t b prec = SolveStoppable t b prec s /\
  (forall k, poll nilChan k = false) /\
  SolvePrec t b prec = SolveStoppable t b prec nilChan /\
  Solve t b = SolvePrec t b fzero.
Proof.
  split; [|repeat split].
  unfold SolvePrec, SolveStoppable, run.
  rewrite (loop_poll_ext t b prec nilChan s); [reflexivity|].
  intros k. now rewrite Hnever.
Qed.

Lemma SolvePrec_is_SolveStoppable_never_cancelled_witness :
  let t := MatTran [[float64.ofZ 2; float64.ofZ 0];
                    [float64.ofZ 0; float64.ofZ 4]] in
  let b := [float64.ofZ 4; float64.ofZ 8] in
  let s := mkChan (fun _ => false) in
  (forall k, poll s k = false) /\
  SolvePrec t b (float64.ofZ 0) = SolveStoppable t b (float64.ofZ 0) s /\
  (forall k, poll nilChan k = false) /\
  SolvePrec t b (float64.ofZ 0)
    = SolveStoppable t b (float64.ofZ 0) nilChan /\
  Solve t b = SolvePrec t b fzero.
Proof.
  intros t b s. split; [intros k; reflexivity|].
  apply (@SolvePrec_is_SolveStoppable_never_cancelled
           _ _ t b (float64.ofZ 0) s).
  intros k. reflexivity.
Defined.

(** ** Cancellation *)

Lemma run_first_pass_ready
  {F : Type} `{Scalar F}
  (t : LinTran F) (b : Vector F) (prec : F) (c : chan) :
  poll c 0 = true ->
  let st0 := init t b in
  run t b prec c = (Exhausted, 0, st0) \/
  run t b prec c = (Converged, 0, st0) \/
  run t b prec c = (Degenerate, 0, direction 0 st0) \/
  run t b prec c = (Cancelled, 1, advance t b 0 (direction 0 st0)).
Proof.
  intros Hp st0. unfold run. fold st0.
  destruct (Dim t) as [|n]; simpl; [now left|].
  unfold body. destruct (fle _ prec); [now right; left|].
  destruct (allZero _); [now right; right; left|].
  rewrite Hp. now right; right; right.
Qed.


(** C7.  The channel is polled once per pass, after the solution and the
    residual of that pass are updated: a pass that returns did so on a
    ready receive and returns the fully advanced state, a pass that
    breaks never looks at the channel, and a run in which the receive
    of pass [i] is ready returns the solution as that pass left it.  If
    the receive is ready in the first pass already, at most one pass
    ran through and the vector returned is the zero vector or the zero
    vector advanced by the one step along [b]. *)
Theorem cancellation_polled_at_iteration_boundary
  {F : Type} `{Scalar F}
  (t : LinTran F) (b : Vector F) (prec : F) (c : chan) :
  (forall i st st',
      body t b prec c i st = Return st' ->
      poll c i = true /\ st' = advance t b i (direction i st)) /\
  (forall c' i st e st',
      body t b prec c i st = Break e st' ->
      body t b prec c' i st = Break e st') /\
  (forall i st,
      stateAt t b prec c i = Some st -> i < Dim t ->
      fle (greatestValue (residual st)) prec = false ->
      allZero (conjVec (direction i st)) = false ->
      poll c i = true ->
      run t b prec c = (Cancelled, S i, advance t b i (direction i st)) /\
      SolveStoppable t b prec c
        = solution (advance t b i (direction i st))) /\
  (poll c 0 = true ->
   snd (fst (run t b prec c)) <= 1 /\
   (SolveStoppable t b prec c = make (Dim t) \/
    SolveStoppable t b prec c
      = Add (make (Dim t))
            (Scale b (fdiv (Dot b b) (Dot b (Apply t b)))))).
Proof.
  split; [|split; [|split]].
  - intros i st st' Hb.
    destruct (body_Return_inv _ _ _ _ _ _ Hb) as (_ & _ & Hp & Hst).
    now split.
  - intros c' i st e st' Hb.
    destruct (body_Break_inv _ _ _ _ _ _ Hb)
      as [(-> & -> & Hconv)|(-> & -> & Hconv & Hz)].
    + now apply body_converged.
    + unfold body. now rewrite Hconv, Hz.
  - intros i st Hs Hi Hconv Hz Hp.
    unfold SolveStoppable.
    rewrite (run_from_stateAt _ _ _ _ _ Hs).
    replace (Dim t - i) with (S (Dim t - S i)) by lia. simpl.
    unfold body. rewrite Hconv, Hz, Hp. now split.
  - intros Hp.
    destruct (run_first_pass_ready t b prec c Hp)
      as [Hr|[Hr|[Hr|Hr]]]; unfold SolveStoppable; rewrite Hr; simpl;
      (split; [lia|]); try (now left).
    right. reflexivity.
Qed.

Lemma cancellation_polled_at_iteration_boundary_witness :
  let t := MatTran [[float64.ofZ 4; float64.ofZ 1];
                    [float64.ofZ 1; float64.ofZ 3]] in
  let b := [float64.ofZ 1; float64.ofZ 2] in
  let c := mkChan (fun _ => true) in
  poll c 0 = true /\
  snd (fst (run t b fzero c)) <= 1 /\
  (SolveStoppable t b fzero c = make (Dim t) \/
   SolveStoppable t b fzero c
     = Add (make (Dim t))
           (Scale b (fdiv (Dot b b) (Dot b (Apply t b))))).
Proof.
  intros t b c. split; [reflexivity|].
  apply (@cancellation_polled_at_iteration_boundary _ _ t b fzero c).
  reflexivity.
Defined.

(** ** The residual update *)

Lemma recompute_iff (i : nat) :
  recompute i = true <-> exists k, 0 < k /\ i = k * 20.
Proof.
  unfold recompute, residualUpdateFrequency.
  rewrite andb_true_iff, negb_true_iff, !Nat.eqb_neq, Nat.eqb_eq.
  split.
  - intros [Hi Hm]. exists (i / 20).
    pose proof (Nat.div_mod_eq i 20) as Hd. lia.
  - intros (k & Hk & ->). split; [lia|]. apply Nat.Div0.mod_mul.
Qed.

(** C4.  The constant is 20; the condition of line 54 holds exactly at
    the indices that are positive multiples of it (so not at index 0);
    and a pass that gets past both [break]s hands on the solution
    advanced along the new direction, with the residual recomputed as
    [(-1) * t.Apply(solution) + b] from the advanced solution when the
    condition holds and updated as [residual + (-optimalDistance) *
    t.Apply(conjVec)] when it does not. *)
Theorem residual_recomputed_every_20
  {F : Type} `{Scalar F}
  (t : LinTran F) (b : Vector F) (prec : F) (c : chan)
  (i : nat) (st : state)
  (Hconv : fle (greatestValue (residual st)) prec = false)
  (Hdir : allZero (conjVec (direction i st)) = false) :
  residualUpdateFrequency = 20 /\
  (recompute i = true <-> exists k, 0 < k /\ i = k * 20) /\
  recompute 0 = false /\
  exists st',
    (body t b prec c i st = Next st' \/ body t b prec c i st = Return st') /\
    let d := direction i st in
    let od := fdiv (Dot (conjVec d) (residual st))
                   (Dot (conjVec d) (Apply t (conjVec d))) in
    solution st' = Add (solution st) (Scale (conjVec d) od) /\
    residual st' =
      if recompute i
      then Add (Scale (Apply t (solution st')) (fneg fone)) b
      else Add (residual st) (Scale (Apply t (conjVec d)) (fneg od)).
Proof.
  split; [reflexivity|]. split; [apply recompute_iff|].
  split; [reflexivity|].
  exists (advance t b i (direction i st)). split.
  - destruct (body_cases t b prec c i st Hconv) as [(Hz & _)|[(_ & _ & Hb)|(_ & _ & Hb)]].
    + rewrite Hdir in Hz. discriminate.
    + now right.
    + now left.
  - simpl. unfold optimalDistance, Copy.
    rewrite direction_residual, direction_solution. split; reflexivity.
Qed.

Lemma residual_recomputed_every_20_witness :
  let t := MatTran [[float64.ofZ 4; float64.ofZ 1];
                    [float64.ofZ 1; float64.ofZ 3]] in
  let b := [float64.ofZ 1; float64.ofZ 2] in
  let st := init t b in
  fle (greatestValue (residual st)) fzero = false /\
  allZero (conjVec (direction 20 st)) = false /\
  recompute 20 = true /\
  exists st',
    (body t b fzero nilChan 20 st = Next st' \/
     body t b fzero nilChan 20 st = Return st') /\
    residual st' = Add (Scale (Apply t (solution st')) (fneg fone)) b.
Proof.
  intros t b st.
  assert (Hconv : fle (greatestValue (residual st)) fzero = false)
    by reflexivity.
  assert (Hdir : allZero (conjVec (direction 20 st)) = false)
    by reflexivity.
  split; [exact Hconv|]. split; [exact Hdir|]. split; [reflexivity|].
  destruct (@residual_recomputed_every_20 _ _ t b fzero nilChan 20 st
              Hconv Hdir)
    as (_ & _ & _ & st' & Hb & _ & Hres).
  exists st'. split; [exact Hb | exact Hres].
Defined.

(** ** The search direction *)

(** C1 as the code has it.  In a pass after the first that gets past
    the convergence check, with [residualDot = residual . residual] and
    [projAmount = -residualDot / lastResidualDot]: the new
    [lastResidualDot] is [residualDot], the new [conjVec] is
    [residual + (-projAmount) * conjVec] on the previous [conjVec]
    (the coefficient applied is the negation of [projAmount]), the
    residual and the solution are left alone by this step, and the rest
    of the pass keeps that direction. *)
Theorem direction_update_after_first
  {F : Type} `{Scalar F}
  (t : LinTran F) (b : Vector F) (prec : F) (c : chan)
  (i : nat) (st : state)
  (Hi : i <> 0)
  (Hconv : fle (greatestValue (residual st)) prec = false) :
  let residualDot := Dot (residual st) (residual st) in
  let projAmount := fdiv (fneg residualDot) (lastResidualDot st) in
  let d := direction i st in
  lastResidualDot d = residualDot /\
  conjVec d = Add (residual st) (Scale (conjVec st) (fneg projAmount)) /\
  residual d = residual st /\
  solution d = solution st /\
  (body t b prec c i st = Break Degenerate d \/
   body t b prec c i st = Return (advance t b i d) \/
   body t b prec c i st = Next (advance t b i d)) /\
  conjVec (advance t b i d) = conjVec d /\
  lastResidualDot (advance t b i d) = residualDot.
Proof.
  intros residualDot projAmount d.
  assert (Hd : d = {| conjVec := Add (residual st)
                                     (Scale (conjVec st) (fneg projAmount));
                      residual := residual st;
                      solution := solution st;
                      lastResidualDot := residualDot |}).
  { unfold d, direction. destruct (Nat.eqb_spec i 0); [contradiction|].
    reflexivity. }
  repeat split; try (rewrite Hd; reflexivity).
  destruct (body_cases t b prec c i st Hconv)
    as [(_ & Hb)|[(_ & _ & Hb)|(_ & _ & Hb)]]; auto.
Qed.

Lemma direction_update_after_first_witness :
  let t := MatTran [[float64.ofZ 4; float64.ofZ 1];
                    [float64.ofZ 1; float64.ofZ 3]] in
  let b := [float64.ofZ 1; float64.ofZ 2] in
  exists st,
    stateAt t b fzero nilChan 1 = Some st /\
    conjVec (direction 1 st)
    = Add (residual st)
          (Scale (conjVec st)
                 (fneg (fdiv (fneg (Dot (residual st) (residual st)))
                             (lastResidualDot st)))).
Proof.
  intros t b. eexists. split; [vm_compute; reflexivity|].
  apply (@direction_update_after_first _ _ t b fzero nilChan 1);
    [discriminate | vm_compute; reflexivity].
Defined.

(** The direction the code computes after the first pass is not
    [residual + projAmount * conjVec]: on [[4 1; 1 3]] and [b = (1, 2)]
    the second direction is [(-0.4375, 0.375)], and the formula with
    [projAmount] itself gives [(-0.5625, 0.125)]. *)
Lemma direction_update_sign_counterexample :
  let t := MatTran [[float64.ofZ 4; float64.ofZ 1];
                    [float64.ofZ 1; float64.ofZ 3]] in
  let b := [float64.ofZ 1; float64.ofZ 2] in
  exists st,
    stateAt t b fzero nilChan 1 = Some st /\
    fle (greatestValue (residual st)) fzero = false /\
    let residualDot := Dot (residual st) (residual st) in
    let beta := fdiv (fneg residualDot) (lastResidualDot st) in
    conjVec (direction 1 st)
      = [float64.ofBits (-7) (-4); float64.ofBits 3 (-3)] /\
    Add (residual st) (Scale (conjVec st) beta)
      = [float64.ofBits (-9) (-4); float64.ofBits 1 (-3)] /\
    conjVec (direction 1 st) <> Add (residual st) (Scale (conjVec st) beta).
Proof.
  intros t b. eexists. split; [vm_compute; reflexivity|].
  split; [vm_compute; reflexivity|].
  split; [vm_compute; reflexivity|].
  split; [vm_compute; reflexivity|].
  vm_compute. discriminate.
Qed.

(** ** Vector algebra under exact arithmetic *)

Section IdealArithmetic.
Context {F : Type} `{Scalar F}.
Hypothesis Fring :
  ring_theory fzero fone fadd fmul (fun x y => fadd x (fneg y)) fneg
              (@eq F).

Add Ring Fring : Fring.

Lemma Add_length (u v : Vector F) : length (Add u v) = length u.
Proof.
  induction u as [|x u IH] in v |- *; destruct v; simpl; auto.
Qed.

Lemma Scale_length (v : Vector F) (c : F) : length (Scale v c) = length v.
Proof. apply length_map. Qed.

Lemma Scale_Add (u v : Vector F) (c : F) :
  Scale (Add u v) c = Add (Scale u c) (Scale v c).
Proof.
  induction u as [|x u IH] in v |- *; destruct v as [|y v]; simpl;
    try reflexivity.
  rewrite IH. f_equal. ring.
Qed.

Lemma Scale_Scale (v : Vector F) (a c : F) :
  Scale (Scale v a) c = Scale v (fmul a c).
Proof.
  unfold Scale. rewrite map_map. apply map_ext. intros x. ring.
Qed.

Lemma Add_swap (u v w : Vector F) :
  Add (Add u v) w = Add (Add u w) v.
Proof.
  induction u as [|x u IH] in v, w |- *;
    destruct v as [|y v]; destruct w as [|z w]; simpl; try reflexivity.
  rewrite IH. f_equal. ring.
Qed.

Lemma Scale_make (n : nat) (c : F) : Scale (make n) c = make n.
Proof.
  unfold Scale, make. induction n as [|n IH]; simpl; [reflexivity|].
  rewrite IH. f_equal. ring.
Qed.

Lemma Scale_zero (v : Vector F) : Scale v fzero = make (length v).
Proof.
  unfold Scale, make. induction v as [|x v IH]; simpl; [reflexivity|].
  rewrite IH. f_equal. ring.
Qed.

Lemma Add_make_l (v : Vector F) : Add (make (length v)) v = v.
Proof.
  unfold make. induction v as [|x v IH]; simpl; [reflexivity|].
  rewrite IH. f_equal. ring.
Qed.

(** A linear operator maps the zero vector to the zero vector. *)
Lemma Apply_make (t : LinTran F) :
  linear t -> Apply t (make (Dim t)) = make (Dim t).
Proof.
  intros (Hlen & _ & Hscale).
  assert (Hz : length (make (F:=F) (Dim t)) = Dim t) by apply repeat_length.
  rewrite <- (Scale_make (Dim t) fzero) at 1.
  rewrite (Hscale _ _ Hz), Scale_zero, (Hlen _ Hz). reflexivity.
Qed.

Lemma residualInvariant_init (t : LinTran F) (b : Vector F) :
  linear t -> length b = Dim t -> residualInvariant t b (init t b).
Proof.
  intros Hlin Hb. unfold residualInvariant, init, Copy. simpl.
  rewrite (Apply_make Hlin), Scale_make, <- Hb. symmetry.
  apply Add_make_l.
Qed.

(** The incremental update keeps the invariant (line 57). *)
Lemma residualInvariant_advance
  (t : LinTran F) (b : Vector F) (i : nat) (st : state) :
  linear t ->
  length (solution st) = Dim t -> length (conjVec st) = Dim t ->
  residualInvariant t b st -> residualInvariant t b (advance t b i st).
Proof.
  intros (Hlen & Hadd & Hscale) Hsol Hcv Hinv.
  unfold residualInvariant, advance. simpl.
  destruct (recompute i); [reflexivity|].
  unfold Copy.
  rewrite Hadd, Hscale; try assumption;
    [|now rewrite Scale_length].
  assert (Hneg : forall x, fmul x (fneg fone) = fneg x) by (intros; ring).
  rewrite Hinv, Scale_Add, Scale_Scale, Hneg. apply Add_swap.
Qed.

(** The direct recomputation establishes it outright (line 55). *)
Lemma residualInvariant_recompute
  (t : LinTran F) (b : Vector F) (i : nat) (st : state) :
  recompute i = true -> residualInvariant t b (advance t b i st).
Proof.
  intros Hr. unfold residualInvariant, advance. simpl. now rewrite Hr.
Qed.

Lemma direction_conjVec_length (i : nat) (st : state) :
  length (conjVec (direction i st)) = length (residual st).
Proof.
  unfold direction, Copy. destruct (Nat.eqb i 0); simpl;
    [reflexivity | apply Add_length].
Qed.

Lemma advance_solution_length
  (t : LinTran F) (b : Vector F) (i : nat) (st : state) :
  length (solution (advance t b i st)) = length (solution st).
Proof. simpl. apply Add_length. Qed.

Lemma advance_residual_length
  (t : LinTran F) (b : Vector F) (i : nat) (st : state) :
  linear t ->
  length (solution st) = Dim t -> length (residual st) = Dim t ->
  length (residual (advance t b i st)) = Dim t.
Proof.
  intros (Hlen & _ & _) Hsol Hres. simpl.
  destruct (recompute i); rewrite Add_length; [|assumption].
  rewrite Scale_length. apply Hlen. now rewrite Add_length.
Qed.

(** Every state in which the loop header is reached has vectors of the
    operator's dimension and satisfies the invariant. *)
Lemma stateAt_invariant
  (t : LinTran F) (b : Vector F) (prec : F) (c : chan) :
  linear t -> length b = Dim t ->
  forall i st,
    stateAt t b prec c i = Some st ->
    length (solution st) = Dim t /\ length (residual st) = Dim t /\
    residualInvariant t b st.
Proof.
  intros Hlin Hb i. induction i as [|i IH]; intros st Hs.
  - injection Hs as <-. repeat split.
    + apply repeat_length.
    + exact Hb.
    + now apply residualInvariant_init.
  - destruct (stateAt_S _ _ _ _ _ Hs) as (st0 & Hs0 & _ & Hbody).
    destruct (IH _ Hs0) as (Hsol & Hres & Hinv).
    destruct (body_Next_inv _ _ _ _ _ _ Hbody) as (_ & _ & _ & ->).
    repeat split.
    + now rewrite advance_solution_length, direction_solution.
    + apply advance_residual_length; try assumption.
      * now rewrite direction_solution.
      * now rewrite direction_residual.
    + apply residualInvariant_advance; try assumption.
      * now rewrite direction_solution.
      * now rewrite direction_conjVec_length.
      * unfold residualInvariant.
        now rewrite direction_residual, direction_solution.
Qed.

(** A dense matrix is a linear operator. *)
Lemma Dot_acc (u v : Vector F) (a : F) :
  fold_left (fun acc p => fadd acc (fmul (fst p) (snd p))) (combine u v) a
  = fadd a (Dot u v).
Proof.
  unfold Dot. revert v a.
  induction u as [|x u IH]; intros v a; [simpl; ring|].
  destruct v as [|y v]; simpl; [ring|].
  rewrite (IH v (fadd a (fmul x y))), (IH v (fadd fzero (fmul x y))). ring.
Qed.

Lemma Dot_cons (x y : F) (u v : Vector F) :
  Dot (x :: u) (y :: v) = fadd (fmul x y) (Dot u v).
Proof. unfold Dot at 1. simpl. rewrite Dot_acc. ring. Qed.

Lemma Dot_Add_r (r u v : Vector F) :
  length u = length v ->
  Dot r (Add u v) = fadd (Dot r u) (Dot r v).
Proof.
  revert u v. induction r as [|x r IH]; intros u v Hlen.
  - unfold Dot. simpl. ring.
  - destruct u as [|y u]; destruct v as [|z v]; try discriminate.
    + unfold Dot. simpl. ring.
    + simpl Add. rewrite !Dot_cons, IH by (simpl in Hlen; lia). ring.
Qed.

Lemma Dot_Scale_r (r v : Vector F) (c : F) :
  Dot r (Scale v c) = fmul (Dot r v) c.
Proof.
  revert v. induction r as [|x r IH]; intros v.
  - unfold Dot. simpl. ring.
  - destruct v as [|y v].
    + unfold Dot. simpl. ring.
    + simpl Scale. rewrite !Dot_cons, IH. ring.
Qed.

Lemma MatTran_linear (m : list (Vector F)) : linear (MatTran m).
Proof.
  repeat split; simpl.
  - intros v _. apply length_map.
  - intros u v Hu Hv.
    assert (Huv : length u = length v) by congruence.
    clear Hu Hv. induction m as [|r m' IH]; simpl; [reflexivity|].
    now rewrite (Dot_Add_r r u v Huv), IH.
  - intros v c _. unfold Scale. rewrite map_map. apply map_ext.
    intros r. apply Dot_Scale_r.
Qed.

End IdealArithmetic.

(** The canonical rationals are an instance of exact arithmetic. *)
Lemma exact_idealArithmetic : idealArithmetic exact.t.
Proof. exact Qcrt. Qed.

(** C2.  Under exact arithmetic (the entries form a commutative ring)
    and for a linear operator [t] with a right-hand side of its
    dimension: [residual == b - t.Apply(solution)] holds of the initial
    state; the incremental update of line 57, paired with the solution
    update of line 53, preserves it; the direct recomputation of line 55
    establishes it whatever held before; and so it holds in every state
    in which the loop header is reached. *)
Theorem residual_invariant_at_iteration_start
  {F : Type} `{Scalar F}
  (t : LinTran F) (b : Vector F) (prec : F) (c : chan)
  (Hideal : idealArithmetic F)
  (Hlin : linear t)
  (Hb : length b = Dim t) :
  residualInvariant t b (init t b) /\
  (forall i st,
      length (solution st) = Dim t -> length (conjVec st) = Dim t ->
      residualInvariant t b st ->
      residualInvariant t b (advance t b i st)) /\
  (forall i st,
      recompute i = true -> residualInvariant t b (advance t b i st)) /\
  (forall i st,
      stateAt t b prec c i = Some st -> residualInvariant t b st).
Proof.
  split; [now apply residualInvariant_init|].
  split; [intros i st; now apply residualInvariant_advance|].
  split; [intros i st; now apply residualInvariant_recompute|].
  intros i st Hs.
  now destruct (@stateAt_invariant _ _ Hideal t b prec c Hlin Hb i st Hs)
    as (_ & _ & ?).
Qed.

Lemma residual_invariant_at_iteration_start_witness :
  let t := MatTran [[exact.ofZ 4; exact.ofZ 1];
                    [exact.ofZ 1; exact.ofZ 3]] in
  let b := [exact.ofZ 1; exact.ofZ 2] in
  idealArithmetic exact.t /\ linear t /\ length b = Dim t /\
  exists st,
    stateAt t b fzero nilChan 1 = Some st /\ residualInvariant t b st.
Proof.
  intros t b.
  split; [exact exact_idealArithmetic|].
  split; [exact (MatTran_linear exact_idealArithmetic _)|].
  split; [reflexivity|].
  eexists. split; [vm_compute; reflexivity|].
  apply (@residual_invariant_at_iteration_start
           _ _ t b fzero nilChan exact_idealArithmetic
           (MatTran_linear exact_idealArithmetic _) eq_refl) with (i := 1).
  vm_compute. reflexivity.
Defined.

(** ** Scenario 1: the identity operator *)

(** Equality of vectors of canonical rationals, entry by entry. *)
Lemma exact_cons_eq (x y : exact.t) (u v : Vector exact.t) :
  Qeq x y -> u = v -> x :: u = y :: v.
Proof. intros Hxy ->. f_equal. now apply Qc_is_canon. Qed.

Ltac exact_vector :=
  vm_compute;
  repeat (apply exact_cons_eq; [vm_compute; reflexivity|]);
  reflexivity.

Ltac exact_scalar := apply Qc_is_canon; vm_compute; reflexivity.

(** C8.  Under exact arithmetic, on the 2 x 2 identity and [b = (3, 4)]:
    [Solve] returns [(3, 4)]; the convergence check fails at index 0;
    the first pass takes [conjVec = (3, 4)], [optimalDistance = 1],
    and leaves [solution = (3, 4)], [residual = (0, 0)]; the
    convergence check at index 1 then ends the loop, after exactly one
    pass of work. *)
Theorem identity_3_4_solved_in_one_pass :
  let t := MatTran [[exact.ofZ 1; exact.ofZ 0];
                    [exact.ofZ 0; exact.ofZ 1]] in
  let b := [exact.ofZ 3; exact.ofZ 4] in
  let d := direction 0 (init t b) in
  Solve t b = [exact.ofZ 3; exact.ofZ 4] /\
  fle (greatestValue (residual (init t b))) fzero = false /\
  conjVec d = [exact.ofZ 3; exact.ofZ 4] /\
  optimalDistance t d = exact.ofZ 1 /\
  solution (advance t b 0 d) = [exact.ofZ 3; exact.ofZ 4] /\
  residual (advance t b 0 d) = [exact.ofZ 0; exact.ofZ 0] /\
  stateAt t b fzero nilChan 1 = Some (advance t b 0 d) /\
  body t b fzero nilChan 1 (advance t b 0 d)
    = Break Converged (advance t b 0 d) /\
  run t b fzero nilChan = (Converged, 1, advance t b 0 d) /\
  passes (run t b fzero nilChan) = 2.
Proof.
  intros t b d.
  assert (Hconv0 : fle (greatestValue (residual (init t b))) fzero = false)
    by (vm_compute; reflexivity).
  assert (Hz0 : allZero (conjVec d) = false) by (vm_compute; reflexivity).
  assert (Hconv1 :
            fle (greatestValue (residual (advance t b 0 d))) fzero = true)
    by (vm_compute; reflexivity).
  assert (Hb0 : body t b fzero nilChan 0 (init t b) = Next (advance t b 0 d)).
  { unfold body. rewrite Hconv0. fold d. now rewrite Hz0. }
  assert (Hb1 : body t b fzero nilChan 1 (advance t b 0 d)
                = Break Converged (advance t b 0 d))
    by now apply body_converged.
  assert (Hrun : run t b fzero nilChan = (Converged, 1, advance t b 0 d)).
  { unfold run. change (Dim t) with 2. now rewrite loop_S, Hb0, loop_S, Hb1. }
  split; [unfold Solve, SolvePrec, SolveStoppable; rewrite Hrun; exact_vector|].
  split; [exact Hconv0|].
  split; [exact_vector|].
  split; [exact_scalar|].
  split; [exact_vector|].
  split; [exact_vector|].
  split.
  { apply stateAt_next with (st := init t b);
      [reflexivity | simpl; lia | exact Hb0]. }
  split; [exact Hb1|].
  split; [exact Hrun|].
  now rewrite Hrun.
Qed.

(** The same run in [float64], where every operation of it is exact. *)
Lemma identity_3_4_float64 :
  let t := MatTran [[float64.ofZ 1; float64.ofZ 0];
                    [float64.ofZ 0; float64.ofZ 1]] in
  let b := [float64.ofZ 3; float64.ofZ 4] in
  Solve t b = [float64.ofZ 3; float64.ofZ 4] /\
  run t b fzero nilChan
  = (Converged, 1,
     {| conjVec := [float64.ofZ 3; float64.ofZ 4];
        residual := [S754_zero false; S754_zero false];
        solution := [float64.ofZ 3; float64.ofZ 4];
        lastResidualDot := float64.ofZ 25 |}).
Proof. split; vm_compute; reflexivity. Qed.

(** ** The convergence check and the all-zero test *)

Section ZeroVectors.
Context {F : Type} `{Scalar F}.
Hypothesis abs_of_zero : forall x, fne x fzero = false -> mathAbs x = fzero.
Hypothesis max_zero_zero : mathMax fzero fzero = fzero.

(** A vector that passes [allZero] has greatest absolute value [0]. *)
Lemma allZero_greatestValue (v : Vector F) :
  allZero v = true -> greatestValue v = fzero.
Proof.
  unfold greatestValue. induction v as [|x v IH]; simpl; [reflexivity|].
  destruct (fne x fzero) eqn:Hx; [discriminate|].
  intros Hv. now rewrite (abs_of_zero _ Hx), max_zero_zero, IH.
Qed.

(** So, for a precision that [0] is within, a residual that fails the
    convergence check does not pass [allZero]. *)
Lemma not_converged_not_allZero (v : Vector F) (prec : F) :
  fle fzero prec = true ->
  fle (greatestValue v) prec = false -> allZero v = false.
Proof.
  intros Hprec Hconv. destruct (allZero v) eqn:Hz; [|reflexivity].
  rewrite (allZero_greatestValue _ Hz) in Hconv. congruence.
Qed.

Hypothesis zero_is_zero : fne fzero fzero = false.

Lemma allZero_make (n : nat) : allZero (make n) = true.
Proof.
  unfold make. induction n as [|n IH]; simpl; [reflexivity|].
  now rewrite zero_is_zero.
Qed.

Hypothesis zero_le_zero : fle fzero fzero = true.

(** [Solve] on a right-hand side of zeros: the first convergence check
    passes, if the loop is entered at all. *)
Lemma run_zero_rhs (t : LinTran F) (b : Vector F) :
  allZero b = true ->
  run t b fzero nilChan
  = (if Nat.eqb (Dim t) 0 then Exhausted else Converged, 0, init t b).
Proof.
  intros Hb. unfold run. destruct (Dim t) as [|n] eqn:Hn; [reflexivity|].
  rewrite loop_S, body_converged; [reflexivity|].
  unfold init, Copy. simpl.
  now rewrite (allZero_greatestValue _ Hb).
Qed.

Lemma Solve_zero_rhs (t : LinTran F) (b : Vector F) :
  allZero b = true -> Solve t b = make (Dim t).
Proof.
  intros Hb. unfold Solve, SolvePrec, SolveStoppable.
  now rewrite run_zero_rhs.
Qed.

End ZeroVectors.

(** *** In [float64] *)

Lemma float64_eq_zero (x : float64.t) :
  fne x fzero = false -> exists s, x = S754_zero s.
Proof.
  destruct x as [s|s| |s m e]; simpl.
  - intros _. now exists s.
  - destruct s; discriminate.
  - discriminate.
  - destruct s; discriminate.
Qed.

Lemma float64_abs_of_zero (x : float64.t) :
  fne x fzero = false -> mathAbs x = fzero.
Proof. intros Hx. destruct (float64_eq_zero x Hx) as [s ->]. reflexivity. Qed.

(** *** In exact arithmetic *)

Lemma exact_eq_zero (x : exact.t) : fne x fzero = false -> x = fzero.
Proof.
  simpl. rewrite negb_false_iff. intros Hx.
  apply Qc_is_canon. now apply Qeq_bool_eq.
Qed.

Lemma exact_abs_of_zero (x : exact.t) :
  fne x fzero = false -> mathAbs x = fzero.
Proof. intros Hx. rewrite (exact_eq_zero x Hx). now apply Qc_is_canon. Qed.

(** *** The greatest absolute value, exactly *)

Lemma exact_Max_cases (x y : exact.t) :
  Qcle x (exact.Max x y) /\ Qcle y (exact.Max x y) /\
  (exact.Max x y = x \/ exact.Max x y = y).
Proof.
  unfold exact.Max. destruct (Qle_bool x y) eqn:Hle.
  - apply Qle_bool_iff in Hle. repeat split; auto using Qcle_refl.
  - assert (Hlt : ~ Qle x y) by (rewrite <- Qle_bool_iff; congruence).
    repeat split; auto using Qcle_refl.
    apply Qnot_le_lt in Hlt. now apply Qlt_le_weak.
Qed.

Lemma exact_fold_Max (v : Vector exact.t) (a : exact.t) :
  let r := fold_left (fun max x => mathMax max (mathAbs x)) v a in
  Qcle a r /\
  (forall x, In x v -> Qcle (Qcabs x) r) /\
  (r = a \/ exists x, In x v /\ r = Qcabs x).
Proof.
  revert a. induction v as [|y v IH]; intros a r; subst r;
    cbn [fold_left In].
  - split; [apply Qcle_refl|]. split; [intros x [] | now left].
  - destruct (IH (mathMax a (mathAbs y))) as (Hle & Hall & Hatt).
    destruct (exact_Max_cases a (Qcabs y)) as (Ha & Hy & Hm).
    split; [eapply Qcle_trans; eassumption|]. split.
    + intros x [<-|Hx]; [eapply Qcle_trans; eassumption | now apply Hall].
    + destruct Hatt as [Hr|(x & Hx & Hr)].
      * rewrite Hr. destruct Hm as [Hm|Hm]; [now left|].
        right. exists y. split; [now left | exact Hm].
      * right. exists x. split; [now right | exact Hr].
Qed.

(** C3.  In [float64], as the code runs: a pass that finds
    [greatestValue(residual) <= prec] breaks at once, with the state
    untouched, and the call returns the solution of that state; and on
    a right-hand side whose entries are all zero [Solve] returns the
    zero vector of the operator's dimension without a single pass of
    work, by the convergence check at index 0 when the dimension is
    not 0.  Under exact arithmetic [greatestValue] is the greatest
    absolute value of the entries ([0] for no entries). *)
Theorem convergence_check_first_zero_rhs_immediate
  (t : LinTran float64.t) (b : Vector float64.t) (prec : float64.t)
  (c : chan) :
  (forall i st,
      fle (greatestValue (residual st)) prec = true ->
      body t b prec c i st = Break Converged st /\
      forall fuel, loop t b prec c (S fuel) i st = (Converged, i, st)) /\
  (forall i st,
      stateAt t b prec c i = Some st -> i < Dim t ->
      fle (greatestValue (residual st)) prec = true ->
      run t b prec c = (Converged, i, st) /\
      SolveStoppable t b prec c = solution st) /\
  (forall m, allZero (make (F:=float64.t) m) = true) /\
  (forall b0,
      allZero b0 = true ->
      Solve t b0 = make (Dim t) /\
      fle (greatestValue (residual (init t b0))) fzero = true /\
      run t b0 fzero nilChan
      = (if Nat.eqb (Dim t) 0 then Exhausted else Converged,
         0, init t b0)) /\
  (forall v : Vector exact.t,
      (forall x, In x v -> Qcle (Qcabs x) (greatestValue v)) /\
      (greatestValue v = Q2Qc 0 \/
       exists x, In x v /\ greatestValue v = Qcabs x)).
Proof.
  split; [|split; [|split; [|split]]].
  - intros i st Hconv. split; [now apply body_converged|].
    intros fuel. now rewrite loop_S, body_converged.
  - intros i st Hs Hi Hconv. unfold SolveStoppable.
    rewrite (run_from_stateAt _ _ _ _ _ Hs).
    replace (Dim t - i) with (S (Dim t - S i)) by lia.
    now rewrite loop_S, body_converged.
  - intros m. now apply allZero_make.
  - intros b0 Hb0. split; [|split].
    + apply Solve_zero_rhs; auto using float64_abs_of_zero.
    + unfold init, Copy. simpl residual.
      now rewrite (@allZero_greatestValue _ _ float64_abs_of_zero eq_refl).
    + apply run_zero_rhs; auto using float64_abs_of_zero.
  - intros v. destruct (exact_fold_Max v fzero) as (_ & Hall & Hatt).
    split; assumption.
Qed.

Lemma convergence_check_first_zero_rhs_immediate_witness :
  let t := MatTran [[float64.ofZ 4; float64.ofZ 1];
                    [float64.ofZ 1; float64.ofZ 3]] in
  let b := [float64.ofZ 1; float64.ofZ 2] in
  let prec := float64.ofZ 2 in
  let b0 := [S754_zero true; S754_zero false] in
  (fle (greatestValue (residual (init t b))) prec = true /\
   stateAt t b prec nilChan 0 = Some (init t b) /\ 0 < Dim t /\
   run t b prec nilChan = (Converged, 0, init t b) /\
   SolveStoppable t b prec nilChan = solution (init t b)) /\
  (allZero b0 = true /\
   Solve t b0 = [S754_zero false; S754_zero false]).
Proof.
  intros t b prec b0. split.
  - split; [reflexivity|]. split; [reflexivity|]. split; [simpl; lia|].
    apply (@convergence_check_first_zero_rhs_immediate t b prec nilChan);
      [reflexivity | simpl; lia | reflexivity].
  - split; [reflexivity|].
    apply (@convergence_check_first_zero_rhs_immediate t b prec nilChan).
    reflexivity.
Defined.

(** The zero right-hand side under exact arithmetic. *)
Lemma Solve_zero_rhs_exact (t : LinTran exact.t) (m : nat) :
  Solve t (make m) = make (Dim t).
Proof.
  apply Solve_zero_rhs; auto using exact_abs_of_zero.
  now apply allZero_make.
Qed.

(** ** The first search direction *)

(** The first direction is the residual, the first [lastResidualDot]
    its dot product with itself. *)
Lemma direction_0 {F : Type} `{Scalar F} (st : state) :
  conjVec (direction 0 st) = residual st /\
  lastResidualDot (direction 0 st) = Dot (residual st) (residual st).
Proof. split; reflexivity. Qed.

(** *** Sums of squares of rationals *)

Ltac to_Q :=
  unfold Qclt, Qcle, Qcplus, Qcmult, Q2Qc in *; cbn [this] in *;
  rewrite ?Qred_correct in *.

Lemma exact_square_nonneg (x : Qc) : Qcle (Q2Qc 0) (Qcmult x x).
Proof. to_Q. nra. Qed.

Lemma exact_square_pos (x : Qc) : x <> Q2Qc 0 -> Qclt (Q2Qc 0) (Qcmult x x).
Proof.
  intros Hx.
  assert (Hx' : ~ Qeq (this x) 0).
  { intros E. apply Hx. apply Qc_is_canon. exact E. }
  to_Q.
  destruct (Q_dec (this x) 0) as [[Hlt|Hgt]|Heq]; [nra|nra|contradiction].
Qed.

Lemma exact_Dot_self (v : Vector exact.t) :
  Qcle (Q2Qc 0) (Dot v v) /\
  (allZero v = false -> Qclt (Q2Qc 0) (Dot v v)).
Proof.
  induction v as [|x v [IHle IHlt]].
  - split; [unfold Dot; simpl; to_Q; lra | discriminate].
  - rewrite (Dot_cons exact_idealArithmetic).
    pose proof (exact_square_nonneg x) as Hsq.
    split.
    + simpl fadd; simpl fmul. to_Q. lra.
    + change (allZero (x :: v))
        with (if fne x fzero then false else allZero v).
      destruct (fne x fzero) eqn:Hx.
      * intros _.
        assert (Hne : x <> Q2Qc 0).
        { intros ->. simpl in Hx. discriminate. }
        pose proof (exact_square_pos Hne) as Hpos.
        simpl fadd; simpl fmul. to_Q. lra.
      * intros Hz. specialize (IHlt Hz).
        simpl fadd; simpl fmul. to_Q. lra.
Qed.

(** C10 as the code has it.  For a precision that [0] is within and any
    state whose residual fails the convergence check, the first pass
    (index 0) does not take the all-zero break: its direction is the
    residual itself, which has an entry that is not zero.  Its
    [lastResidualDot] is the dot product of the residual with itself as
    the arithmetic computes it: strictly positive under exact
    arithmetic, and in [float64] a rounded sum of rounded squares, on
    which nothing more is promised here. *)
Theorem first_pass_not_degenerate :
  (forall (t : LinTran float64.t) (b : Vector float64.t)
          (prec : float64.t) (c : chan) (st : state),
      fle fzero prec = true ->
      fle (greatestValue (residual st)) prec = false ->
      conjVec (direction 0 st) = residual st /\
      allZero (conjVec (direction 0 st)) = false /\
      (forall st', body t b prec c 0 st <> Break Degenerate st') /\
      lastResidualDot (direction 0 st)
        = Dot (residual st) (residual st)) /\
  (forall (t : LinTran exact.t) (b : Vector exact.t)
          (prec : exact.t) (c : chan) (st : state),
      fle fzero prec = true ->
      fle (greatestValue (residual st)) prec = false ->
      conjVec (direction 0 st) = residual st /\
      allZero (conjVec (direction 0 st)) = false /\
      (forall st', body t b prec c 0 st <> Break Degenerate st') /\
      lastResidualDot (direction 0 st)
        = Dot (residual st) (residual st) /\
      Qclt (Q2Qc 0) (lastResidualDot (direction 0 st))).
Proof.
  split.
  - intros t b prec c st Hprec Hconv.
    assert (Hz : allZero (residual st) = false).
    { apply (@not_converged_not_allZero _ _ float64_abs_of_zero eq_refl)
        with (prec := prec); assumption. }
    repeat split; try assumption.
    intros st' Hb.
    destruct (body_Break_inv _ _ _ _ _ _ Hb)
      as [(He & _)|(_ & _ & _ & Hz')]; [discriminate|].
    simpl in Hz'. unfold Copy in Hz'. congruence.
  - intros t b prec c st Hprec Hconv.
    assert (Hz : allZero (residual st) = false).
    { apply (@not_converged_not_allZero _ _ exact_abs_of_zero)
        with (prec := prec); try assumption.
      now apply Qc_is_canon. }
    repeat split; try assumption.
    + intros st' Hb.
      destruct (body_Break_inv _ _ _ _ _ _ Hb)
        as [(He & _)|(_ & _ & _ & Hz')]; [discriminate|].
      simpl in Hz'. unfold Copy in Hz'. congruence.
    + simpl. unfold Copy. now apply exact_Dot_self.
Qed.

Lemma first_pass_not_degenerate_witness :
  let t := MatTran [[float64.ofBits 1 600]] in
  let b := [float64.ofBits 1 (-600)] in
  fle fzero (float64.ofZ 0) = true /\
  fle (greatestValue (residual (init t b))) (float64.ofZ 0) = false /\
  allZero (conjVec (direction 0 (init t b))) = false.
Proof.
  intros t b. split; [reflexivity|]. split; [reflexivity|].
  apply (proj1 first_pass_not_degenerate t b (float64.ofZ 0) nilChan);
    reflexivity.
Defined.

(** In [float64] the first [lastResidualDot] need not be strictly
    positive: on the 1 x 1 operator [(2^600)] with [b = (2^-600)] and
    precision 0, no value of the run is a NaN or an infinity, the
    convergence check fails at index 0, the pass runs through (the
    all-zero break is not taken), and [lastResidualDot], the square
    [2^-1200] rounded to [float64], is [+0] during and after it. *)
Lemma lastResidualDot_underflow_counterexample :
  let t := MatTran [[float64.ofBits 1 600]] in
  let b := [float64.ofBits 1 (-600)] in
  let prec := float64.ofZ 0 in
  fle fzero prec = true /\
  forallb float64.finite (residual (init t b)) = true /\
  fle (greatestValue (residual (init t b))) prec = false /\
  allZero (conjVec (direction 0 (init t b))) = false /\
  lastResidualDot (direction 0 (init t b)) = S754_zero false /\
  (exists st1,
      stateAt t b prec nilChan 1 = Some st1 /\
      lastResidualDot st1 = S754_zero false /\
      forallb float64.finite (solution st1 ++ residual st1 ++ conjVec st1)
        = true) /\
  ~ (SFltb fzero (lastResidualDot (direction 0 (init t b))) = true).
Proof.
  intros t b prec. repeat split; try reflexivity.
  - eexists. split; [vm_compute; reflexivity|]. split; reflexivity.
  - vm_compute. discriminate.
Qed.

(** ** Division by zero in [float64] *)

Module Float64Facts.
Import float64.

Lemma div_by_zero (x y : t) :
  fne y fzero = false -> finite (fdiv x y) = false.
Proof.
  intros Hy. destruct (float64_eq_zero y Hy) as [s ->].
  destruct x; reflexivity.
Qed.

Lemma div_nonfinite (x y : t) :
  finite x = false -> finite (fdiv x y) = false.
Proof.
  intros Hx. destruct x; try discriminate Hx; destruct y; reflexivity.
Qed.

Lemma neg_nonfinite (x : t) :
  finite x = false -> finite (fneg x) = false.
Proof. destruct x; intros Hx; try discriminate Hx; reflexivity. Qed.

Lemma mul_nonfinite_r (x y : t) :
  finite y = false -> finite (fmul x y) = false.
Proof.
  intros Hy. destruct y; try discriminate Hy; destruct x; reflexivity.
Qed.

Lemma mul_nonfinite_l (x y : t) :
  finite x = false -> finite (fmul x y) = false.
Proof.
  intros Hx. destruct x; try discriminate Hx; destruct y; reflexivity.
Qed.

Lemma add_nonfinite_r (x y : t) :
  finite y = false -> finite (fadd x y) = false.
Proof.
  intros Hy. destruct y as [|sy| |]; try discriminate Hy;
    destruct x as [|sx| |]; try reflexivity.
  destruct sx, sy; reflexivity.
Qed.

Lemma add_nonfinite_l (x y : t) :
  finite x = false -> finite (fadd x y) = false.
Proof.
  intros Hx. destruct x as [|sx| |]; try discriminate Hx;
    destruct y as [|sy| |]; try reflexivity.
  destruct sx, sy; reflexivity.
Qed.

(** An infinity or a NaN is [!= 0]. *)
Lemma nonfinite_ne_zero (x : t) : finite x = false -> fne x fzero = true.
Proof.
  destruct x as [|s| |]; intros Hx; try discriminate Hx;
    [destruct s|]; reflexivity.
Qed.

End Float64Facts.

(** *** Vectors with non-finite entries *)

Section NonFinite.
Import Float64Facts.

Lemma nonfiniteUpTo_iff (n : nat) (v : Vector float64.t) :
  nonfiniteUpTo n v = true <->
  forall j, j < n ->
    exists x, nth_error v j = Some x /\ float64.finite x = false.
Proof.
  unfold nonfiniteUpTo. revert v.
  induction n as [|n IH]; intros v.
  - simpl. split; [intros _ j Hj; lia | reflexivity].
  - destruct v as [|x v].
    + simpl. split; [discriminate|].
      intros Hall. destruct (Hall 0) as (y & Hy & _); [lia|discriminate].
    + specialize (IH v). simpl length. simpl firstn. simpl forallb.
      change (Nat.leb (S n) (S (length v))) with (Nat.leb n (length v)).
      rewrite andb_true_iff in IH. rewrite !andb_true_iff, negb_true_iff.
      split.
      * intros (Hlen & Hx & Hall) [|j] Hj.
        -- exists x. now split.
        -- apply IH; [now split | lia].
      * intros Hall. destruct (Hall 0) as (y & [= <-] & Hy); [lia|].
        assert (Hrest : Nat.leb n (length v) = true /\
                        forallb (fun x => negb (float64.finite x))
                                (firstn n v) = true).
        { apply IH. intros j Hj. apply (Hall (S j)). lia. }
        tauto.
Qed.

Lemma Add_nth_error (u w : Vector float64.t) (j : nat) :
  nth_error (Add u w) j =
  match nth_error u j, nth_error w j with
  | Some x, Some y => Some (fadd x y)
  | Some x, None => Some x
  | None, _ => None
  end.
Proof.
  revert w j. induction u as [|x u IH]; intros w j.
  - destruct j; reflexivity.
  - destruct w as [|y w]; destruct j as [|j]; simpl; try reflexivity.
    + now destruct (nth_error u j).
    + apply IH.
Qed.

(** Accumulating into a vector leaves its non-finite entries
    non-finite. *)
Lemma Add_nonfinite_l (n : nat) (u w : Vector float64.t) :
  nonfiniteUpTo n u = true -> nonfiniteUpTo n (Add u w) = true.
Proof.
  rewrite !nonfiniteUpTo_iff. intros Hu j Hj.
  destruct (Hu j Hj) as (x & Hx & Hnf).
  rewrite Add_nth_error, Hx.
  destruct (nth_error w j) as [y|]; eexists; split; try reflexivity.
  - now apply add_nonfinite_l.
  - assumption.
Qed.

(** Accumulating a multiple by an infinity or a NaN makes every entry
    it reaches non-finite. *)
Lemma Add_Scale_nonfinite (u v : Vector float64.t) (c : float64.t) :
  float64.finite c = false ->
  nonfiniteUpTo (Nat.min (length u) (length v)) (Add u (Scale v c)) = true.
Proof.
  intros Hc. rewrite nonfiniteUpTo_iff. intros j Hj.
  rewrite Add_nth_error. unfold Scale. rewrite nth_error_map.
  destruct (nth_error u j) as [x|] eqn:Hx.
  - destruct (nth_error v j) as [y|] eqn:Hy.
    + eexists. split; [reflexivity|].
      apply add_nonfinite_r. now apply mul_nonfinite_r.
    + apply nth_error_None in Hy. lia.
  - apply nth_error_None in Hx. lia.
Qed.

Lemma fold_nonfinite (l : list (float64.t * float64.t)) (a : float64.t) :
  float64.finite a = false ->
  float64.finite
    (fold_left (fun acc p => fadd acc (fmul (fst p) (snd p))) l a) = false.
Proof.
  revert a. induction l as [|p l IH]; intros a Ha; [exact Ha|].
  simpl. apply IH. now apply add_nonfinite_l.
Qed.

(** A dot product whose first product is non-finite is non-finite. *)
Lemma Dot_nonfinite_head (x y : float64.t) (u v : Vector float64.t) :
  float64.finite (fmul x y) = false ->
  float64.finite (Dot (x :: u) (y :: v)) = false.
Proof.
  intros Hxy.
  change (Dot (x :: u) (y :: v))
    with (fold_left (fun acc p => fadd acc (fmul (fst p) (snd p)))
                    (combine u v) (fadd fzero (fmul x y))).
  apply fold_nonfinite. now apply add_nonfinite_r.
Qed.

Variable t : LinTran float64.t.
Variable b : Vector float64.t.
Variable prec : float64.t.
Variable c : chan.

(** The solution only ever accumulates: what is non-finite stays so to
    the end of the loop. *)
Lemma loop_keeps_nonfinite (n fuel : nat) :
  forall i st,
    nonfiniteUpTo n (solution st) = true ->
    nonfiniteUpTo n (solution (snd (loop t b prec c fuel i st))) = true.
Proof.
  induction fuel as [|fuel IH]; intros i st Hst; [exact Hst|].
  rewrite loop_S.
  destruct (body t b prec c i st) as [e st'|st'|st'] eqn:Hb.
  - destruct (body_Break_inv _ _ _ _ _ _ Hb)
      as [(_ & -> & _)|(_ & -> & _)]; simpl snd.
    + exact Hst.
    + now rewrite direction_solution.
  - destruct (body_Return_inv _ _ _ _ _ _ Hb) as (_ & _ & _ & ->).
    simpl. apply Add_nonfinite_l. now rewrite direction_solution.
  - destruct (body_Next_inv _ _ _ _ _ _ Hb) as (_ & _ & _ & ->).
    apply IH. simpl. apply Add_nonfinite_l. now rewrite direction_solution.
Qed.

(** A pass that steps by a non-finite distance returns, or hands on, a
    solution that is non-finite wherever the direction reaches. *)
Lemma nonfinite_step_propagates (i : nat) (st : state) :
  stateAt t b prec c i = Some st -> i < Dim t ->
  fle (greatestValue (residual st)) prec = false ->
  let d := direction i st in
  allZero (conjVec d) = false ->
  float64.finite (optimalDistance t d) = false ->
  nonfiniteUpTo (Nat.min (length (solution st)) (length (conjVec d)))
                (SolveStoppable t b prec c) = true.
Proof.
  intros Hs Hi Hconv d Hz Hod. unfold SolveStoppable.
  rewrite (run_from_stateAt _ _ _ _ _ Hs).
  replace (Dim t - i) with (S (Dim t - S i)) by lia. rewrite loop_S.
  assert (Hstep :
            nonfiniteUpTo (Nat.min (length (solution st)) (length (conjVec d)))
                          (solution (advance t b i d)) = true).
  { change (solution (advance t b i d))
      with (Add (solution d) (Scale (conjVec d) (optimalDistance t d))).
    replace (solution d) with (solution st)
      by (symmetry; apply direction_solution).
    now apply Add_Scale_nonfinite. }
  destruct (body_cases t b prec c i st Hconv)
    as [(Hz' & _)|[(_ & _ & Hb)|(_ & _ & Hb)]].
  - fold d in Hz'. congruence.
  - rewrite Hb. exact Hstep.
  - rewrite Hb. now apply loop_keeps_nonfinite.
Qed.

End NonFinite.

(** The solution keeps the length [make] gave it. *)
Lemma stateAt_solution_length {F : Type} `{Scalar F}
  (t : LinTran F) (b : Vector F) (prec : F) (c : chan) :
  forall i st,
    stateAt t b prec c i = Some st -> length (solution st) = Dim t.
Proof.
  induction i as [|i IH]; intros st Hs.
  - injection Hs as <-. apply repeat_length.
  - destruct (stateAt_S _ _ _ _ _ Hs) as (st0 & Hs0 & _ & Hb).
    destruct (body_Next_inv _ _ _ _ _ _ Hb) as (_ & _ & _ & ->).
    rewrite advance_solution_length, direction_solution. now apply IH.
Qed.

(** C9.  In [float64], in a pass that got past the convergence check:
    if the direction is not all-zero and [conjVec . t.Apply(conjVec)]
    is zero, or if (after the first pass) [lastResidualDot] is zero,
    then no test stands between the division and its use: the quotient
    [projAmount] (in the second case) and the step [optimalDistance]
    (in both) are infinities or NaNs, the all-zero break is not taken,
    and the vector the call returns -- a plain vector, with no error
    beside it -- is non-finite in every entry the direction reaches,
    its first entry among them. *)
Theorem division_by_zero_reaches_solution
  (t : LinTran float64.t) (b : Vector float64.t) (prec : float64.t)
  (c : chan) (i : nat) (st : state)
  (Hs : stateAt t b prec c i = Some st)
  (Hi : i < Dim t)
  (Hconv : fle (greatestValue (residual st)) prec = false)
  (Hzero :
     (allZero (conjVec (direction i st)) = false /\
      fne (Dot (conjVec (direction i st))
               (Apply t (conjVec (direction i st)))) fzero = false) \/
     (i <> 0 /\ fne (lastResidualDot st) fzero = false /\
      conjVec st <> [] /\ residual st <> [])) :
  let d := direction i st in
  (i <> 0 -> fne (lastResidualDot st) fzero = false ->
   float64.finite (fdiv (fneg (Dot (residual st) (residual st)))
                        (lastResidualDot st)) = false) /\
  float64.finite (optimalDistance t d) = false /\
  allZero (conjVec d) = false /\
  1 <= Nat.min (Dim t) (length (conjVec d)) /\
  nonfiniteUpTo (Nat.min (Dim t) (length (conjVec d)))
                (SolveStoppable t b prec c) = true /\
  exists x,
    nth_error (SolveStoppable t b prec c) 0 = Some x /\
    float64.finite x = false.
Proof.
  intros d.
  assert (Hbeta : i <> 0 -> fne (lastResidualDot st) fzero = false ->
                  float64.finite
                    (fdiv (fneg (Dot (residual st) (residual st)))
                          (lastResidualDot st)) = false).
  { intros _ Hl. now apply Float64Facts.div_by_zero. }
  assert (Hod : float64.finite (optimalDistance t d) = false /\
                allZero (conjVec d) = false).
  { destruct Hzero as [(Hz & Hden)|(Hi0 & Hl & Hcv & Hres)].
    - split; [|exact Hz]. now apply Float64Facts.div_by_zero.
    - destruct (conjVec st) as [|c0 cs] eqn:Ecv; [contradiction|].
      destruct (residual st) as [|r0 rs] eqn:Eres; [contradiction|].
      assert (Hd : exists x xs,
                 conjVec d = x :: xs /\ float64.finite x = false).
      { unfold d, direction. destruct (Nat.eqb_spec i 0); [contradiction|].
        simpl conjVec. unfold Copy. rewrite Ecv, Eres.
        eexists. eexists. split; [reflexivity|].
        apply Float64Facts.add_nonfinite_r, Float64Facts.mul_nonfinite_r,
              Float64Facts.neg_nonfinite, Float64Facts.div_by_zero.
        exact Hl. }
      destruct Hd as (x & xs & Ed & Hx). split.
      + unfold optimalDistance. apply Float64Facts.div_nonfinite.
        rewrite Ed. unfold d. rewrite direction_residual, Eres.
        apply Dot_nonfinite_head. now apply Float64Facts.mul_nonfinite_l.
      + rewrite Ed.
        change (allZero (x :: xs))
          with (if fne x fzero then false else allZero xs).
        now rewrite (Float64Facts.nonfinite_ne_zero x Hx). }
  destruct Hod as (Hod & Hz).
  assert (Hlen : 1 <= Nat.min (Dim t) (length (conjVec d))).
  { destruct (conjVec d); [discriminate Hz | simpl; lia]. }
  assert (Hall : nonfiniteUpTo (Nat.min (Dim t) (length (conjVec d)))
                               (SolveStoppable t b prec c) = true).
  { rewrite <- (stateAt_solution_length t b prec c i Hs).
    now apply nonfinite_step_propagates. }
  repeat split; try assumption.
  apply (proj1 (nonfiniteUpTo_iff _ _) Hall). lia.
Qed.

Lemma division_by_zero_reaches_solution_witness :
  (let t := MatTran [[float64.ofZ 1; float64.ofZ 0];
                     [float64.ofZ 0; float64.ofZ 0]] in
   let b := [float64.ofZ 0; float64.ofZ 1] in
   let st := init t b in
   stateAt t b fzero nilChan 0 = Some st /\
   0 < Dim t /\
   fle (greatestValue (residual st)) fzero = false /\
   allZero (conjVec (direction 0 st)) = false /\
   fne (Dot (conjVec (direction 0 st))
            (Apply t (conjVec (direction 0 st)))) fzero = false /\
   float64.finite (optimalDistance t (direction 0 st)) = false /\
   nonfiniteUpTo 2 (SolveStoppable t b fzero nilChan) = true) /\
  (let t := MatTran [[float64.ofBits 1 600; float64.ofZ 0];
                     [float64.ofZ 0; float64.ofBits 1 600]] in
   let b := [float64.ofBits 1 (-600); float64.ofZ 0] in
   exists st,
     stateAt t b fzero nilChan 1 = Some st /\
     1 < Dim t /\
     fle (greatestValue (residual st)) fzero = false /\
     fne (lastResidualDot st) fzero = false /\
     conjVec st <> [] /\ residual st <> [] /\
     float64.finite (optimalDistance t (direction 1 st)) = false /\
     nonfiniteUpTo 2 (SolveStoppable t b fzero nilChan) = true).
Proof.
  split.
  - intros t b st.
    assert (Hconv : fle (greatestValue (residual st)) fzero = false)
      by reflexivity.
    assert (Hz : allZero (conjVec (direction 0 st)) = false) by reflexivity.
    assert (Hden : fne (Dot (conjVec (direction 0 st))
                            (Apply t (conjVec (direction 0 st)))) fzero
                   = false) by reflexivity.
    split; [reflexivity|]. split; [simpl; lia|]. split; [exact Hconv|].
    split; [exact Hz|]. split; [exact Hden|].
    pose proof (@division_by_zero_reaches_solution t b fzero nilChan 0 st
                  eq_refl (Nat.lt_0_succ 1) Hconv
                  (or_introl (conj Hz Hden))) as Hw.
    split; apply Hw.
  - intros t b. eexists.
    split; [vm_compute; reflexivity|].
    match goal with
    | |- _ /\ ?conv /\ ?lrd /\ ?cv /\ ?res /\ _ =>
      assert (Hconv : conv) by reflexivity;
      assert (Hl : lrd) by reflexivity;
      assert (Hcv : cv) by discriminate;
      assert (Hres : res) by discriminate
    end.
    split; [simpl; lia|]. split; [exact Hconv|]. split; [exact Hl|].
    split; [exact Hcv|]. split; [exact Hres|].
    match goal with
    | |- float64.finite (optimalDistance _ (direction 1 ?st)) = false /\ _ =>
      pose proof (@division_by_zero_reaches_solution t b fzero nilChan 1 st
                    eq_refl (Nat.lt_succ_diag_r 1) Hconv
                    (or_intror (conj (Nat.neq_succ_0 0)
                                     (conj Hl (conj Hcv Hres))))) as Hw
    end.
    split; apply Hw.
Defined.

(** The positive-semidefinite [diag(1, 0)] with [b = (0, 1)]: the first
    step divides [1] by [0] and leaves the solution [(NaN, +Inf)], which
    a cancelled call returns; the second pass turns it into
    [(NaN, NaN)], which [Solve] returns. *)
Lemma semidefinite_returns_nonfinite :
  let t := MatTran [[float64.ofZ 1; float64.ofZ 0];
                    [float64.ofZ 0; float64.ofZ 0]] in
  let b := [float64.ofZ 0; float64.ofZ 1] in
  optimalDistance t (direction 0 (init t b)) = S754_infinity false /\
  SolveStoppable t b fzero (mkChan (fun _ => true))
    = [S754_nan; S754_infinity false] /\
  Solve t b = [S754_nan; S754_nan].
Proof. repeat split; vm_compute; reflexivity. Qed.

(** [2^600 * identity] with [b = (2^-600, 0)]: the first
    [lastResidualDot] underflows to [0], the second pass computes
    [projAmount = -0 / 0], and [Solve] returns [(NaN, NaN)]. *)
Lemma beta_division_by_zero_returns_nonfinite :
  let t := MatTran [[float64.ofBits 1 600; float64.ofZ 0];
                    [float64.ofZ 0; float64.ofBits 1 600]] in
  let b := [float64.ofBits 1 (-600); float64.ofZ 0] in
  (exists st,
      stateAt t b fzero nilChan 1 = Some st /\
      fle (greatestValue (residual st)) fzero = false /\
      fne (lastResidualDot st) fzero = false /\
      fdiv (fneg (Dot (residual st) (residual st))) (lastResidualDot st)
        = S754_nan) /\
  Solve t b = [S754_nan; S754_nan].
Proof.
  intros t b. split.
  - eexists. split; [vm_compute; reflexivity|]. repeat split.
  - vm_compute. reflexivity.
Qed.

(** * Further properties of the solver *)

(** ** The shape of the result *)

Lemma loop_solution_length {F : Type} `{Scalar F}
  (t : LinTran F) (b : Vector F) (prec : F) (c : chan) (fuel : nat) :
  forall i st,
    length (solution (snd (loop t b prec c fuel i st)))
    = length (solution st).
Proof.
  induction fuel as [|fuel IH]; intros i st; [reflexivity|].
  rewrite loop_S.
  destruct (body t b prec c i st) as [e st'|st'|st'] eqn:Hb.
  - destruct (body_Break_inv _ _ _ _ _ _ Hb)
      as [(_ & -> & _)|(_ & -> & _)]; simpl snd;
      [reflexivity | now rewrite direction_solution].
  - destruct (body_Return_inv _ _ _ _ _ _ Hb) as (_ & _ & _ & ->).
    simpl snd. now rewrite advance_solution_length, direction_solution.
  - destruct (body_Next_inv _ _ _ _ _ _ Hb) as (_ & _ & _ & ->).
    now rewrite IH, advance_solution_length, direction_solution.
Qed.

(** X1.  Whatever the operator does and whatever the length of [b], the
    vector [SolveStoppable] returns has [t.Dim()] entries: it is made
    with that length and only ever accumulated into. *)
Theorem SolveStoppable_length {F : Type} `{Scalar F}
  (t : LinTran F) (b : Vector F) (prec : F) (c : chan) :
  length (SolveStoppable t b prec c) = Dim t /\
  length (SolvePrec t b prec) = Dim t /\
  length (Solve t b) = Dim t.
Proof.
  assert (Hlen : forall p ch, length (SolveStoppable t b p ch) = Dim t).
  { intros p ch. unfold SolveStoppable, run.
    rewrite loop_solution_length. apply repeat_length. }
  repeat split; apply Hlen.
Qed.

(** X2.  On an empty right-hand side the call returns the zero vector
    of the operator's dimension, whatever the precision and the
    channel: either the first convergence check passes, or the first
    direction, a copy of the empty residual, passes [allZero]. *)
Theorem SolveStoppable_empty_rhs {F : Type} `{Scalar F}
  (t : LinTran F) (prec : F) (c : chan) :
  SolveStoppable t [] prec c = make (Dim t) /\
  snd (fst (run t [] prec c)) = 0 /\
  fst (fst (run t [] prec c)) <> Cancelled.
Proof.
  unfold SolveStoppable, run.
  destruct (Dim t) as [|n] eqn:Hn.
  - simpl. rewrite Hn. repeat split. discriminate.
  - rewrite loop_S. unfold body.
    destruct (fle _ prec).
    + simpl. rewrite Hn. repeat split. discriminate.
    + simpl. rewrite Hn. repeat split. discriminate.
Qed.

(** ** Cancellation and the uncancelled run *)

Section Uncancelled.
Context {F : Type} `{Scalar F}.
Variable t : LinTran F.
Variable b : Vector F.
Variable prec : F.

(** Only the polls of the passes that are left matter. *)
Lemma loop_poll_ext_bounded (c c' : chan) (fuel : nat) :
  forall i st,
    (forall k, i <= k < i + fuel -> poll c k = poll c' k) ->
    loop t b prec c fuel i st = loop t b prec c' fuel i st.
Proof.
  induction fuel as [|fuel IH]; intros i st Hp; [reflexivity|].
  rewrite !loop_S, (body_poll_ext t b prec c c' i st) by (apply Hp; lia).
  destruct (body t b prec c' i st); try reflexivity.
  apply IH. intros k Hk. apply Hp. lia.
Qed.

(** A ready receive at pass [j] bounds the passes that run through. *)
Lemma loop_cancelled_by (c : chan) (j fuel : nat) :
  poll c j = true ->
  forall i st, i <= j -> snd (fst (loop t b prec c fuel i st)) <= S j.
Proof.
  intros Hp. induction fuel as [|fuel IH]; intros i st Hi; [simpl; lia|].
  rewrite loop_S.
  destruct (body t b prec c i st) as [e st'|st'|st'] eqn:Hb;
    [simpl; lia | simpl; lia |].
  destruct (body_Next_inv _ _ _ _ _ _ Hb) as (_ & _ & Hpi & _).
  apply IH. destruct (Nat.eq_dec i j) as [->|]; [congruence | lia].
Qed.

(** What a run under a channel reaches, the run under the nil channel
    reaches too. *)
Lemma stateAt_uncancelled (c : chan) :
  forall i st,
    stateAt t b prec c i = Some st ->
    stateAt t b prec nilChan i = Some st.
Proof.
  induction i as [|i IH]; intros st Hs; [exact Hs|].
  destruct (stateAt_S _ _ _ _ _ Hs) as (st0 & Hs0 & Hi & Hb).
  destruct (body_Next_inv _ _ _ _ _ _ Hb) as (Hconv & Hz & _ & ->).
  apply stateAt_next with (st := st0); [now apply IH | exact Hi |].
  unfold body. now rewrite Hconv, Hz.
Qed.

End Uncancelled.

(** X3.  Once the receive of pass [j] is ready, at most [j + 1] passes
    run through, whatever the receives before it; and a channel that
    is not ready at any of the first [t.Dim()] polls gives the result
    of [SolvePrec]. *)
Theorem cancellation_bounds_passes {F : Type} `{Scalar F}
  (t : LinTran F) (b : Vector F) (prec : F) (c : chan) :
  (forall j, poll c j = true -> snd (fst (run t b prec c)) <= S j) /\
  ((forall j, j < Dim t -> poll c j = false) ->
   SolveStoppable t b prec c = SolvePrec t b prec).
Proof.
  split.
  - intros j Hp. unfold run. apply loop_cancelled_by; [exact Hp | lia].
  - intros Hp. unfold SolvePrec, SolveStoppable, run.
    rewrite (loop_poll_ext_bounded t b prec c nilChan); [reflexivity|].
    intros k Hk. simpl. apply Hp. lia.
Qed.

Lemma cancellation_bounds_passes_witness :
  let t := MatTran [[float64.ofZ 4; float64.ofZ 1];
                    [float64.ofZ 1; float64.ofZ 3]] in
  let b := [float64.ofZ 1; float64.ofZ 2] in
  let late := mkChan (fun k => Nat.leb 2 k) in
  (poll (mkChan (fun k => Nat.leb 1 k)) 1 = true /\
   snd (fst (run t b fzero (mkChan (fun k => Nat.leb 1 k)))) <= 2) /\
  ((forall j, j < Dim t -> poll late j = false) /\
   SolveStoppable t b fzero late = SolvePrec t b fzero).
Proof.
  intros t b late. split.
  - split; [reflexivity|].
    apply (@cancellation_bounds_passes _ _ t b fzero
             (mkChan (fun k => Nat.leb 1 k))).
    reflexivity.
  - assert (Hlate : forall j, j < Dim t -> poll late j = false).
    { intros j Hj. simpl in Hj.
      destruct j as [|[|j]]; [reflexivity | reflexivity | lia]. }
    split; [exact Hlate|].
    now apply (@cancellation_bounds_passes _ _ t b fzero late).
Defined.

(** X4.  Cancellation only ever cuts the uncancelled run short: under
    any channel, the vector returned is the [solution] variable of a
    state in which the run under the nil channel reaches the loop
    header, at an index no greater than the dimension. *)
Theorem cancelled_result_is_uncancelled_iterate {F : Type} `{Scalar F}
  (t : LinTran F) (b : Vector F) (prec : F) (c : chan) :
  exists k st,
    k <= Dim t /\
    snd (fst (run t b prec c)) = k /\
    stateAt t b prec nilChan k = Some st /\
    SolveStoppable t b prec c = solution st.
Proof.
  unfold SolveStoppable.
  pose proof (@loop_exitSpec _ _ t b prec c (Dim t) 0 (init t b)
                eq_refl eq_refl) as Hspec.
  fold (run t b prec c) in Hspec.
  destruct (run t b prec c) as [[e k] st]. simpl snd. simpl fst.
  destruct e; simpl in Hspec.
  - destruct Hspec as (Hk & Hs & _).
    exists k, st. repeat split;
      [lia | now apply stateAt_uncancelled with (c := c)].
  - destruct Hspec as (st0 & Hk & Hs & _ & _ & _ & Hsol).
    exists k, st0. repeat split;
      [lia | now apply stateAt_uncancelled with (c := c) | exact Hsol].
  - destruct Hspec as (j & st0 & -> & Hj & Hs & Hconv & Hz & _ & ->).
    exists (S j), (advance t b j (direction j st0)).
    repeat split; [lia|].
    apply stateAt_next with (st := st0);
      [now apply stateAt_uncancelled with (c := c) | exact Hj |].
    unfold body. now rewrite Hconv, Hz.
  - destruct Hspec as (-> & Hs).
    exists (Dim t), st. repeat split;
      [lia | now apply stateAt_uncancelled with (c := c)].
Qed.

(** X5.  A state handed on to the next pass has a search direction
    that did not pass [allZero], and its [lastResidualDot] is the dot
    product with itself of the residual the pass before started
    from. *)
Theorem direction_between_passes {F : Type} `{Scalar F}
  (t : LinTran F) (b : Vector F) (prec : F) (c : chan)
  (i : nat) (st' : state)
  (Hs' : stateAt t b prec c (S i) = Some st') :
  allZero (conjVec st') = false /\
  exists st,
    stateAt t b prec c i = Some st /\
    conjVec st' = conjVec (direction i st) /\
    lastResidualDot st' = Dot (residual st) (residual st).
Proof.
  destruct (stateAt_S _ _ _ _ _ Hs') as (st & Hs & _ & Hb).
  destruct (body_Next_inv _ _ _ _ _ _ Hb) as (_ & Hz & _ & ->).
  split; [exact Hz|]. exists st. split; [exact Hs|].
  split; [reflexivity|].
  simpl. unfold direction. destruct (Nat.eqb i 0); reflexivity.
Qed.

Lemma direction_between_passes_witness :
  let t := MatTran [[float64.ofZ 4; float64.ofZ 1];
                    [float64.ofZ 1; float64.ofZ 3]] in
  let b := [float64.ofZ 1; float64.ofZ 2] in
  exists st',
    stateAt t b fzero nilChan 2 = Some st' /\
    allZero (conjVec st') = false.
Proof.
  intros t b. eexists. split; [vm_compute; reflexivity|].
  apply (@direction_between_passes _ _ t b fzero nilChan 1).
  vm_compute. reflexivity.
Defined.

(** ** The tests of the loop in [float64] *)

Module Float64Order.
Import float64.

Ltac cmp_cases :=
  repeat match goal with
  | H : context [Z.compare ?a ?b] |- _ => destruct (Z.compare_spec a b)
  | |- context [Z.compare ?a ?b] => destruct (Z.compare_spec a b)
  | H : context [Pos.compare_cont Eq ?a ?b] |- _ =>
      change (Pos.compare_cont Eq a b) with (Pos.compare a b) in H;
      destruct (Pos.compare_spec a b)
  | |- context [Pos.compare_cont Eq ?a ?b] =>
      change (Pos.compare_cont Eq a b) with (Pos.compare a b);
      destruct (Pos.compare_spec a b)
  end.

(** [<=] is transitive, and total away from NaN. *)
Lemma SFleb_trans (x y z : t) :
  SFleb x y = true -> SFleb y z = true -> SFleb x z = true.
Proof.
  unfold SFleb, SFcompare.
  destruct x as [sx|sx| |sx mx ex], y as [sy|sy| |sy my ey],
           z as [sz|sz| |sz mz ez];
    try destruct sx; try destruct sy; try destruct sz;
    try reflexivity; try discriminate;
    intros Hxy Hyz; cmp_cases; subst; simpl in *;
    try reflexivity; try discriminate; try lia.
Qed.

Lemma SFleb_total (x y : t) :
  IsNaN x = false -> IsNaN y = false ->
  SFltb y x = false -> SFleb x y = true.
Proof.
  unfold SFleb, SFltb, SFcompare.
  destruct x as [sx|sx| |sx mx ex], y as [sy|sy| |sy my ey];
    try destruct sx; try destruct sy;
    try reflexivity; try discriminate;
    intros _ _ Hlt; cmp_cases; subst; simpl in *;
    try reflexivity; try discriminate; try lia.
Qed.

Lemma SFltb_leb (x y : t) : SFltb x y = true -> SFleb x y = true.
Proof.
  unfold SFleb, SFltb. destruct (SFcompare x y) as [[| |]|]; congruence.
Qed.

Lemma SFleb_not_nan (x y : t) :
  SFleb x y = true -> IsNaN x = false /\ IsNaN y = false.
Proof. destruct x, y; try discriminate; split; reflexivity. Qed.

Lemma SFleb_infinity (y : t) :
  IsNaN y = false -> SFleb y (S754_infinity false) = true.
Proof. destruct y as [s|s| |s m e]; try discriminate; now destruct s. Qed.

Lemma infinity_SFleb (p : t) :
  SFleb (S754_infinity false) p = true -> IsInf1 p = true.
Proof. destruct p as [s|s| |s m e]; try discriminate; now destruct s. Qed.

(** [math.Max] of two numbers is the one that is not below the
    other. *)
Lemma Max_choice (x y : t) :
  IsNaN x = false -> IsNaN y = false ->
  (Max x y = x /\ SFleb y x = true) \/ (Max x y = y /\ SFleb x y = true).
Proof.
  intros Hx Hy. unfold Max. rewrite Hx, Hy. simpl orb.
  destruct (IsInf1 x) eqn:Hix.
  { left. destruct x as [|[|]| |]; try discriminate.
    split; [reflexivity | now apply SFleb_infinity]. }
  destruct (IsInf1 y) eqn:Hiy.
  { right. destruct y as [|[|]| |]; try discriminate.
    split; [reflexivity | now apply SFleb_infinity]. }
  simpl orb.
  destruct (SFeqb x (S754_zero false) && SFeqb x y) eqn:Hz.
  { apply andb_true_iff in Hz. destruct Hz as [Hx0 Hxy].
    destruct x as [sx|[|]| |[|]]; try discriminate.
    destruct y as [sy|[|]| |[|]]; try discriminate.
    destruct sx; [right | left]; split; reflexivity. }
  destruct (SFltb y x) eqn:Hlt.
  - left. split; [reflexivity | now apply SFltb_leb].
  - right. split; [reflexivity | now apply SFleb_total].
Qed.

(** [math.Max] returns [+Inf], NaN, or one of its arguments. *)
Lemma Max_result (x y : t) :
  Max x y = S754_infinity false \/ Max x y = S754_nan \/
  Max x y = x \/ Max x y = y.
Proof.
  unfold Max.
  destruct (IsInf1 x || IsInf1 y); [now left|].
  destruct (IsNaN x || IsNaN y); [now right; left|].
  destruct (SFeqb x (S754_zero false) && SFeqb x y).
  - destruct (Signbit x); [now right; right; right | now right; right; left].
  - destruct (SFltb y x); [now right; right; left | now right; right; right].
Qed.

Lemma Max_le (a b p : t) :
  SFleb a p = true -> SFleb b p = true -> SFleb (Max a b) p = true.
Proof.
  intros Ha Hb.
  destruct (SFleb_not_nan _ _ Ha) as (Hna & _).
  destruct (SFleb_not_nan _ _ Hb) as (Hnb & _).
  destruct (Max_choice a b Hna Hnb) as [(-> & _)|(-> & _)]; assumption.
Qed.

Lemma Max_le_inv (a b p : t) :
  IsInf1 p = false ->
  SFleb (Max a b) p = true -> SFleb a p = true /\ SFleb b p = true.
Proof.
  intros Hp Hm.
  destruct (IsInf1 a || IsInf1 b) eqn:Hinf.
  { unfold Max in Hm. rewrite Hinf in Hm.
    apply infinity_SFleb in Hm. congruence. }
  destruct (IsNaN a || IsNaN b) eqn:Hnan.
  { unfold Max in Hm. rewrite Hinf, Hnan in Hm. discriminate. }
  apply orb_false_iff in Hnan. destruct Hnan as [Hna Hnb].
  destruct (Max_choice a b Hna Hnb) as [(E & Hle)|(E & Hle)];
    rewrite E in Hm; split; try assumption;
    eapply SFleb_trans; eassumption.
Qed.

Lemma Max_unsigned (x y : t) :
  unsigned x -> unsigned y -> unsigned (Max x y).
Proof.
  intros Hx Hy.
  destruct (Max_result x y) as [-> | [-> | [-> | ->]]]; simpl; auto.
Qed.

Lemma Abs_unsigned (x : t) : unsigned (SFabs x).
Proof. destruct x; simpl; auto. Qed.

(** Nothing with a clear sign bit is [<=] a negative number or a NaN. *)
Lemma unsigned_not_le (x p : t) :
  unsigned x -> IsNaN p = true \/ SFltb p (S754_zero false) = true ->
  SFleb x p = false.
Proof.
  intros Hx [Hp|Hp].
  - destruct p; try discriminate. now destruct x.
  - destruct p as [sp|[|]| |[|] mp ep]; try discriminate;
      destruct x as [sx|sx| |sx mx ex]; simpl in Hx; subst;
      reflexivity.
Qed.

End Float64Order.

(** *** [allZero] *)

(** X6.  In [float64], [allZero] holds of exactly the vectors whose
    entries are all [+0] or [-0]: the empty vector passes, and any
    other entry, a NaN included, fails it. *)
Theorem allZero_float64_iff (v : Vector float64.t) :
  allZero v = true <-> forall x, In x v -> exists s, x = S754_zero s.
Proof.
  induction v as [|y v IH].
  - split; [intros _ x [] | reflexivity].
  - change (allZero (y :: v))
      with (if fne y fzero then false else allZero v).
    split.
    + destruct (fne y fzero) eqn:Hy; [discriminate|].
      intros Hv x [<-|Hx]; [now apply float64_eq_zero | now apply IH].
    + intros Hall. destruct (Hall y (or_introl eq_refl)) as [s ->].
      simpl. apply IH. intros x Hx. apply Hall. now right.
Qed.

(** *** [greatestValue] and the convergence check *)

Section GreatestValue.
Import Float64Order.

Let step := fun (max x : float64.t) => mathMax max (mathAbs x).

Lemma fold_Max_le_iff (v : Vector float64.t) (a prec : float64.t) :
  float64.IsInf1 prec = false ->
  (fle (fold_left step v a) prec = true <->
   fle a prec = true /\ forall x, In x v -> fle (mathAbs x) prec = true).
Proof.
  intros Hp. revert a. induction v as [|y v IH]; intros a.
  - simpl. split; [intros Ha; split; [exact Ha | intros x []] | tauto].
  - cbn [fold_left]. rewrite IH. unfold step at 1. split.
    + intros (Hm & Hall).
      destruct (Max_le_inv a (mathAbs y) prec Hp Hm) as (Ha & Hy).
      split; [exact Ha|]. intros x [<-|Hx]; [exact Hy | now apply Hall].
    + intros (Ha & Hall). split.
      * apply Max_le; [exact Ha | apply Hall; now left].
      * intros x Hx. apply Hall. now right.
Qed.

Lemma fold_Max_unsigned (v : Vector float64.t) (a : float64.t) :
  unsigned a -> unsigned (fold_left step v a).
Proof.
  revert a. induction v as [|y v IH]; intros a Ha; [exact Ha|].
  cbn [fold_left]. apply IH. apply Max_unsigned; [exact Ha|].
  apply Abs_unsigned.
Qed.

Lemma greatestValue_unsigned (v : Vector float64.t) :
  unsigned (greatestValue v).
Proof. apply fold_Max_unsigned. reflexivity. Qed.

(** Once the running maximum is [+Inf] it stays [+Inf]. *)
Lemma fold_Max_infinity (v : Vector float64.t) :
  fold_left step v (S754_infinity false) = S754_infinity false.
Proof. induction v as [|y v IH]; [reflexivity | exact IH]. Qed.

(** An infinite entry makes the maximum [+Inf], whatever came before. *)
Lemma fold_Max_infinite_entry (v : Vector float64.t) (a : float64.t) :
  (exists s, In (S754_infinity s) v) ->
  fold_left step v a = S754_infinity false.
Proof.
  revert a. induction v as [|y v IH]; intros a [s Hs]; [destruct Hs|].
  cbn [fold_left]. destruct Hs as [->|Hs].
  - replace (step a (S754_infinity s)) with (S754_infinity false).
    + apply fold_Max_infinity.
    + unfold step. simpl. unfold float64.Max. simpl.
      now rewrite orb_true_r.
  - apply IH. now exists s.
Qed.

(** Without infinite entries, a NaN in the running maximum stays. *)
Lemma fold_Max_nan (v : Vector float64.t) :
  (forall s, ~ In (S754_infinity s) v) ->
  fold_left step v S754_nan = S754_nan.
Proof.
  induction v as [|y v IH]; intros Hinf; [reflexivity|].
  cbn [fold_left].
  replace (step S754_nan y) with S754_nan.
  - apply IH. intros s Hs. apply (Hinf s). now right.
  - unfold step. simpl. destruct y as [s|s| |s m e]; try reflexivity.
    exfalso. apply (Hinf s). now left.
Qed.

Lemma Max_not_infinity (a b : float64.t) :
  float64.IsInf1 a = false -> float64.IsInf1 b = false ->
  float64.IsInf1 (float64.Max a b) = false.
Proof.
  intros Ha Hb. unfold float64.Max. rewrite Ha, Hb. simpl.
  destruct (float64.IsNaN a || float64.IsNaN b); [reflexivity|].
  destruct (SFeqb a (S754_zero false) && SFeqb a b).
  - destruct (float64.Signbit a); assumption.
  - destruct (SFltb b a); assumption.
Qed.

Lemma fold_Max_nan_entry (v : Vector float64.t) (a : float64.t) :
  float64.IsInf1 a = false ->
  (forall s, ~ In (S754_infinity s) v) -> In S754_nan v ->
  fold_left step v a = S754_nan.
Proof.
  revert a. induction v as [|y v IH]; intros a Ha Hinf Hnan;
    [destruct Hnan|].
  cbn [fold_left].
  assert (Hinf' : forall s, ~ In (S754_infinity s) v).
  { intros s Hs. apply (Hinf s). now right. }
  destruct Hnan as [->|Hnan].
  - replace (step a S754_nan) with S754_nan.
    + now apply fold_Max_nan.
    + unfold step. simpl. unfold float64.Max. rewrite Ha. simpl.
      now rewrite orb_true_r.
  - apply IH; try assumption.
    apply Max_not_infinity; [exact Ha|].
    destruct y as [s|s| |s m e]; try reflexivity.
    exfalso. apply (Hinf s). now left.
Qed.

End GreatestValue.

(** X7.  In [float64], for a precision that is neither negative, nor a
    NaN, nor [+Inf]: a pass leaves by the convergence [break] exactly
    when every entry of the residual is within the precision in
    absolute value. *)
Theorem convergence_break_float64_iff
  (t : LinTran float64.t) (b : Vector float64.t) (prec : float64.t)
  (c : chan) (i : nat) (st : state)
  (Hprec : fle fzero prec = true)
  (Hfin : float64.IsInf1 prec = false) :
  (fle (greatestValue (residual st)) prec = true <->
   forall x, In x (residual st) -> fle (mathAbs x) prec = true) /\
  (body t b prec c i st = Break Converged st <->
   forall x, In x (residual st) -> fle (mathAbs x) prec = true).
Proof.
  assert (Hiff : fle (greatestValue (residual st)) prec = true <->
                 forall x, In x (residual st) ->
                           fle (mathAbs x) prec = true).
  { unfold greatestValue.
    rewrite (fold_Max_le_iff (residual st) fzero prec Hfin). tauto. }
  split; [exact Hiff|].
  rewrite <- Hiff. split.
  - intros Hb. destruct (body_Break_inv _ _ _ _ _ _ Hb)
      as [(_ & _ & Hconv)|(He & _)]; [exact Hconv | discriminate].
  - apply body_converged.
Qed.

Lemma convergence_break_float64_iff_witness :
  let t := MatTran [[float64.ofZ 4; float64.ofZ 1];
                    [float64.ofZ 1; float64.ofZ 3]] in
  let b := [float64.ofZ 1; float64.ofZ (-2)] in
  let prec := float64.ofZ 2 in
  fle fzero prec = true /\ float64.IsInf1 prec = false /\
  (body t b prec nilChan 0 (init t b) = Break Converged (init t b) <->
   forall x, In x (residual (init t b)) -> fle (mathAbs x) prec = true).
Proof.
  intros t b prec. split; [reflexivity|]. split; [reflexivity|].
  apply (@convergence_break_float64_iff t b prec nilChan 0 (init t b));
    reflexivity.
Defined.

(** With precision [+Inf] the equivalence fails: the residual
    [(NaN, +Inf)] passes the check, its maximum being [+Inf], although
    its NaN is not [<=] anything. *)
Lemma convergence_check_infinite_precision :
  let v := [S754_nan; S754_infinity false] in
  fle (greatestValue v) (S754_infinity false) = true /\
  fle (mathAbs S754_nan) (S754_infinity false) = false.
Proof. split; reflexivity. Qed.

(** X8.  In [float64], a precision that is negative or a NaN switches
    the convergence check off: [greatestValue] never has its sign bit
    set, so the check fails on every vector, and no run leaves the loop
    by convergence. *)
Theorem negative_precision_never_converges
  (t : LinTran float64.t) (b : Vector float64.t) (prec : float64.t)
  (c : chan)
  (Hprec : float64.IsNaN prec = true \/ SFltb prec fzero = true) :
  (forall v, unsigned (greatestValue v)) /\
  (forall v, fle (greatestValue v) prec = false) /\
  (forall i st st', body t b prec c i st <> Break Converged st') /\
  fst (fst (run t b prec c)) <> Converged.
Proof.
  assert (Hgv : forall v : Vector float64.t,
             fle (greatestValue v) prec = false).
  { intros v. apply Float64Order.unsigned_not_le;
      [apply greatestValue_unsigned | exact Hprec]. }
  split; [exact greatestValue_unsigned|]. split; [exact Hgv|].
  split.
  - intros i st st' Hb.
    destruct (body_Break_inv _ _ _ _ _ _ Hb)
      as [(_ & _ & Hconv)|(He & _)]; [|discriminate].
    rewrite Hgv in Hconv. discriminate.
  - pose proof (@loop_exitSpec _ _ t b prec c (Dim t) 0 (init t b)
                  eq_refl eq_refl) as Hspec.
    fold (run t b prec c) in Hspec.
    destruct (run t b prec c) as [[e k] st]. simpl.
    intros ->. simpl in Hspec. destruct Hspec as (_ & _ & Hconv).
    rewrite Hgv in Hconv. discriminate.
Qed.

Lemma negative_precision_never_converges_witness :
  let t := MatTran [[float64.ofZ 4; float64.ofZ 1];
                    [float64.ofZ 1; float64.ofZ 3]] in
  let b := [float64.ofZ 0; float64.ofZ 0] in
  let prec := float64.ofZ (-1) in
  (float64.IsNaN prec = true \/ SFltb prec fzero = true) /\
  fst (fst (run t b prec nilChan)) <> Converged /\
  run t b prec nilChan = (Degenerate, 0, direction 0 (init t b)).
Proof.
  intros t b prec.
  assert (Hprec : float64.IsNaN prec = true \/ SFltb prec fzero = true)
    by (right; reflexivity).
  split; [exact Hprec|]. split; [|reflexivity].
  apply (@negative_precision_never_converges t b prec nilChan Hprec).
Defined.

(** X9.  In [float64], [greatestValue] of a vector with an infinite
    entry is [+Inf], whatever else the vector holds; and of a vector
    with a NaN and no infinite entry it is NaN, so that such a
    residual fails the convergence check for every precision. *)
Theorem greatestValue_nonfinite_entries (v : Vector float64.t) :
  ((exists s, In (S754_infinity s) v) ->
   greatestValue v = S754_infinity false) /\
  ((forall s, ~ In (S754_infinity s) v) -> In S754_nan v ->
   greatestValue v = S754_nan /\
   forall prec, fle (greatestValue v) prec = false).
Proof.
  split.
  - apply fold_Max_infinite_entry.
  - intros Hinf Hnan.
    assert (E : greatestValue v = S754_nan)
      by (apply fold_Max_nan_entry; [reflexivity | assumption..]).
    split; [exact E|]. intros prec. rewrite E. reflexivity.
Qed.

Lemma greatestValue_nonfinite_entries_witness :
  let v := [float64.ofZ 1; S754_nan; float64.ofZ 3] in
  (forall s, ~ In (S754_infinity s) v) /\ In S754_nan v /\
  greatestValue v = S754_nan /\
  forall prec, fle (greatestValue v) prec = false.
Proof.
  intros v.
  assert (Hinf : forall s, ~ In (S754_infinity s) v).
  { intros s [Hs|[Hs|[Hs|[]]]]; discriminate Hs. }
  assert (Hnan : In S754_nan v) by (right; left; reflexivity).
  split; [exact Hinf|]. split; [exact Hnan|].
  apply (proj2 (greatestValue_nonfinite_entries v) Hinf Hnan).
Defined.

(** *** A residual with a non-finite entry *)

Section NonFiniteResidual.
Import Float64Facts.

Lemma fold_nonfinite_at (l : list (float64.t * float64.t)) :
  forall (a : float64.t) (j : nat) (p : float64.t * float64.t),
    nth_error l j = Some p ->
    float64.finite (fmul (fst p) (snd p)) = false ->
    float64.finite
      (fold_left (fun acc q => fadd acc (fmul (fst q) (snd q))) l a)
    = false.
Proof.
  induction l as [|q l IH]; intros a j p Hj Hp.
  - destruct j; discriminate.
  - destruct j as [|j]; cbn [fold_left].
    + injection Hj as ->. apply fold_nonfinite.
      now apply add_nonfinite_r.
    + now apply (IH _ j p).
Qed.

Lemma combine_nth_error {A B : Type} (u : list A) (v : list B) :
  forall j x y,
    nth_error u j = Some x -> nth_error v j = Some y ->
    nth_error (combine u v) j = Some (x, y).
Proof.
  revert v. induction u as [|a u IH]; intros v j x y Hx Hy.
  - destruct j; discriminate.
  - destruct v as [|b' v]; [destruct j; discriminate|].
    destruct j as [|j]; simpl in *; [congruence | now apply IH].
Qed.

(** A dot product with a non-finite product somewhere is non-finite. *)
Lemma Dot_nonfinite_at (u v : Vector float64.t) (j : nat)
  (x y : float64.t) :
  nth_error u j = Some x -> nth_error v j = Some y ->
  float64.finite (fmul x y) = false ->
  float64.finite (Dot u v) = false.
Proof.
  intros Hx Hy Hxy. unfold Dot.
  apply fold_nonfinite_at with (j := j) (p := (x, y));
    [now apply combine_nth_error | exact Hxy].
Qed.

Lemma allZero_nonzero_entry (v : Vector float64.t) :
  forall j y,
    nth_error v j = Some y -> fne y fzero = true -> allZero v = false.
Proof.
  induction v as [|z v IH]; intros j y Hj Hy.
  - destruct j; discriminate.
  - change (allZero (z :: v))
      with (if fne z fzero then false else allZero v).
    destruct j as [|j].
    + injection Hj as ->. now rewrite Hy.
    + destruct (fne z fzero); [reflexivity | now apply (IH j y)].
Qed.

(** The new direction is non-finite wherever the residual is. *)
Lemma direction_nonfinite_at (i : nat) (st : state) (j : nat)
  (x : float64.t) :
  nth_error (residual st) j = Some x -> float64.finite x = false ->
  exists y,
    nth_error (conjVec (direction i st)) j = Some y /\
    float64.finite y = false.
Proof.
  intros Hj Hx. unfold direction, Copy.
  destruct (Nat.eqb i 0); simpl conjVec.
  - now exists x.
  - rewrite Add_nth_error, Hj.
    match goal with
    | |- context [nth_error ?l j] => destruct (nth_error l j)
    end; eexists; split; try reflexivity;
      [now apply add_nonfinite_l | exact Hx].
Qed.

End NonFiniteResidual.

(** X10.  In [float64], a NaN or an infinity in the residual that gets
    past the convergence check is never caught: the direction of that
    pass does not pass [allZero], the step [optimalDistance] is
    non-finite, and the vector the call returns is non-finite in every
    entry the direction reaches.  (A residual with a NaN and no
    infinity gets past the check whatever the precision.) *)
Theorem nonfinite_residual_reaches_solution
  (t : LinTran float64.t) (b : Vector float64.t) (prec : float64.t)
  (c : chan) (i : nat) (st : state) (j : nat) (x : float64.t)
  (Hs : stateAt t b prec c i = Some st)
  (Hi : i < Dim t)
  (Hconv : fle (greatestValue (residual st)) prec = false)
  (Hj : nth_error (residual st) j = Some x)
  (Hx : float64.finite x = false) :
  let d := direction i st in
  allZero (conjVec d) = false /\
  float64.finite (optimalDistance t d) = false /\
  nonfiniteUpTo (Nat.min (Dim t) (length (conjVec d)))
                (SolveStoppable t b prec c) = true.
Proof.
  intros d.
  destruct (direction_nonfinite_at i st j Hj Hx) as (y & Hy & Hny).
  fold d in Hy.
  assert (Hz : allZero (conjVec d) = false).
  { apply allZero_nonzero_entry with (j := j) (y := y);
      [exact Hy | now apply Float64Facts.nonfinite_ne_zero]. }
  assert (Hod : float64.finite (optimalDistance t d) = false).
  { unfold optimalDistance. apply Float64Facts.div_nonfinite.
    apply Dot_nonfinite_at with (j := j) (x := y) (y := x);
      [exact Hy | unfold d; now rewrite direction_residual |].
    now apply Float64Facts.mul_nonfinite_r. }
  split; [exact Hz|]. split; [exact Hod|].
  rewrite <- (stateAt_solution_length t b prec c i Hs).
  now apply nonfinite_step_propagates.
Qed.

Lemma nonfinite_residual_reaches_solution_witness :
  let t := MatTran [[float64.ofZ 4; float64.ofZ 1];
                    [float64.ofZ 1; float64.ofZ 3]] in
  let b := [float64.ofZ 1; S754_nan] in
  let prec := float64.ofZ 1000 in
  stateAt t b prec nilChan 0 = Some (init t b) /\ 0 < Dim t /\
  fle (greatestValue (residual (init t b))) prec = false /\
  nth_error (residual (init t b)) 1 = Some S754_nan /\
  float64.finite S754_nan = false /\
  nonfiniteUpTo 2 (SolveStoppable t b prec nilChan) = true.
Proof.
  intros t b prec.
  split; [reflexivity|]. split; [simpl; lia|]. split; [reflexivity|].
  split; [reflexivity|]. split; [reflexivity|].
  apply (@nonfinite_residual_reaches_solution t b prec nilChan 0
           (init t b) 1 S754_nan eq_refl (Nat.lt_0_succ 1)
           eq_refl eq_refl eq_refl).
Defined.

(** ** What a converged run returns, under exact arithmetic *)

(** X11.  Under exact arithmetic, for a linear operator and a
    right-hand side of its dimension: when the call leaves the loop by
    the convergence check, the vector [x] it returns has
    [greatestValue(b - t.Apply(x)) <= prec]: the residual the check
    looked at is the true residual of the result. *)
Theorem converged_result_within_precision
  {F : Type} `{Scalar F}
  (t : LinTran F) (b : Vector F) (prec : F) (c : chan)
  (Hideal : idealArithmetic F)
  (Hlin : linear t)
  (Hb : length b = Dim t)
  (Hexit : fst (fst (run t b prec c)) = Converged) :
  fle (greatestValue
         (Add (Scale (Apply t (SolveStoppable t b prec c)) (fneg fone)) b))
      prec = true.
Proof.
  unfold SolveStoppable.
  pose proof (@loop_exitSpec _ _ t b prec c (Dim t) 0 (init t b)
                eq_refl eq_refl) as Hspec.
  fold (run t b prec c) in Hspec.
  destruct (run t b prec c) as [[e k] st]. simpl in Hexit. subst e.
  simpl in Hspec. destruct Hspec as (_ & Hs & Hconv). simpl snd.
  destruct (@stateAt_invariant _ _ Hideal t b prec c Hlin Hb k st Hs)
    as (_ & _ & Hinv).
  unfold residualInvariant in Hinv. now rewrite <- Hinv.
Qed.

Lemma converged_result_within_precision_witness :
  let t := MatTran [[exact.ofZ 4; exact.ofZ 1; exact.ofZ 0];
                    [exact.ofZ 1; exact.ofZ 3; exact.ofZ 0];
                    [exact.ofZ 0; exact.ofZ 0; exact.ofZ 1]] in
  let b := [exact.ofZ 1; exact.ofZ 2; exact.ofZ 0] in
  idealArithmetic exact.t /\ linear t /\ length b = Dim t /\
  fst (fst (run t b (exact.ofZ 1) nilChan)) = Converged /\
  fle (greatestValue
         (Add (Scale (Apply t (SolveStoppable t b (exact.ofZ 1) nilChan))
                     (fneg fone)) b))
      (exact.ofZ 1) = true.
Proof.
  intros t b.
  assert (Hexit : fst (fst (run t b (exact.ofZ 1) nilChan)) = Converged)
    by (vm_compute; reflexivity).
  split; [exact exact_idealArithmetic|].
  split; [exact (MatTran_linear exact_idealArithmetic _)|].
  split; [reflexivity|]. split; [exact Hexit|].
  exact (@converged_result_within_precision
           _ _ t b (exact.ofZ 1) nilChan exact_idealArithmetic
           (MatTran_linear exact_idealArithmetic _) eq_refl Hexit).
Defined.

(** *** With rationals *)

Lemma exact_fle_iff (x y : exact.t) : fle x y = true <-> Qcle x y.
Proof. simpl. apply Qle_bool_iff. Qed.

Lemma exact_abs_le_zero (x : exact.t) :
  Qcle (Qcabs x) (Q2Qc 0) -> x = Q2Qc 0.
Proof.
  intros Hx. apply Qcabs_null. apply Qcle_antisym; [exact Hx|].
  apply Qcabs_nonneg.
Qed.

(** A vector that passes the convergence check at precision [0] has
    only zero entries. *)
Lemma exact_converged_zero (v : Vector exact.t) :
  fle (greatestValue v) fzero = true -> v = make (length v).
Proof.
  intros Hconv. apply exact_fle_iff in Hconv.
  destruct (exact_fold_Max v fzero) as (_ & Hall & _).
  fold (greatestValue v) in Hall.
  assert (Hzero : forall x, In x v -> x = Q2Qc 0).
  { intros x Hx. apply exact_abs_le_zero.
    eapply Qcle_trans; [now apply Hall | exact Hconv]. }
  clear Hconv Hall. induction v as [|y v IH]; [reflexivity|].
  change (make (length (y :: v)))
    with (fzero :: make (F:=exact.t) (length v)).
  f_equal.
  - apply Hzero. now left.
  - apply IH. intros x Hx. apply Hzero. now right.
Qed.

Lemma Qc_difference_zero (x y : Qc) :
  Qcplus (Qcmult x (Qcopp (Q2Qc 1))) y = Q2Qc 0 -> x = y.
Proof.
  intros Hxy.
  replace x with (Qcplus (Qcmult (Qcplus (Qcmult x (Qcopp (Q2Qc 1))) y)
                                 (Qcopp (Q2Qc 1))) y) by ring.
  rewrite Hxy. ring.
Qed.

(** [(-1) * u + b] is the zero vector only for [u = b]. *)
Lemma exact_difference_zero (u b : Vector exact.t) :
  length u = length b ->
  Add (Scale u (fneg fone)) b = make (length u) -> u = b.
Proof.
  revert b. induction u as [|x u IH]; intros [|y b] Hlen Hz;
    try discriminate; [reflexivity|].
  change (fadd (fmul x (fneg fone)) y :: Add (Scale u (fneg fone)) b
          = fzero :: make (length u)) in Hz.
  pose proof (f_equal (hd fzero) Hz) as Hxy.
  pose proof (f_equal (@tl _) Hz) as Hrest.
  cbn [hd tl] in Hxy, Hrest. clear Hz.
  f_equal.
  - apply Qc_difference_zero. exact Hxy.
  - apply IH; [simpl in Hlen; lia | exact Hrest].
Qed.

(** X12.  With rationals, for a linear operator and a right-hand side
    of its dimension: when [Solve] leaves the loop by the convergence
    check, the vector it returns solves the system exactly,
    [t.Apply(x) = b]. *)
Theorem Solve_converged_solves_exactly
  (t : LinTran exact.t) (b : Vector exact.t)
  (Hlin : linear t)
  (Hb : length b = Dim t)
  (Hexit : fst (fst (run t b fzero nilChan)) = Converged) :
  Apply t (Solve t b) = b.
Proof.
  unfold Solve, SolvePrec, SolveStoppable.
  pose proof (@loop_exitSpec _ _ t b fzero nilChan (Dim t) 0 (init t b)
                eq_refl eq_refl) as Hspec.
  fold (run t b fzero nilChan) in Hspec.
  destruct (run t b fzero nilChan) as [[e k] st]. simpl in Hexit. subst e.
  simpl in Hspec. destruct Hspec as (_ & Hs & Hconv). simpl snd.
  change (stateAt t b fzero nilChan k = Some st) in Hs.
  change (fle (greatestValue (residual st)) fzero = true) in Hconv.
  destruct (@stateAt_invariant _ _ exact_idealArithmetic
              t b fzero nilChan Hlin Hb k st Hs) as (Hsol & Hres & Hinv).
  assert (Hlen : length (Apply t (solution st)) = length b).
  { destruct Hlin as (Hl & _). rewrite (Hl _ Hsol). now symmetry. }
  apply exact_difference_zero; [exact Hlen|].
  unfold residualInvariant in Hinv. rewrite <- Hinv.
  rewrite (exact_converged_zero _ Hconv). f_equal. congruence.
Qed.

Lemma Solve_converged_solves_exactly_witness :
  let b := [exact.ofZ 1; exact.ofZ 2; exact.ofZ 0] in
  let t3 := MatTran [[exact.ofZ 4; exact.ofZ 1; exact.ofZ 0];
                     [exact.ofZ 1; exact.ofZ 3; exact.ofZ 0];
                     [exact.ofZ 0; exact.ofZ 0; exact.ofZ 1]] in
  linear t3 /\ length b = Dim t3 /\
  fst (fst (run t3 b fzero nilChan)) = Converged /\
  Apply t3 (Solve t3 b) = b.
Proof.
  intros b t3.
  assert (Hexit : fst (fst (run t3 b fzero nilChan)) = Converged)
    by (vm_compute; reflexivity).
  split; [exact (MatTran_linear exact_idealArithmetic _)|].
  split; [reflexivity|]. split; [exact Hexit|].
  exact (@Solve_converged_solves_exactly t3 b
           (MatTran_linear exact_idealArithmetic _) eq_refl Hexit).
Defined.

(** ** A right-hand side that is an eigenvector *)

Lemma Qc_step_size (s lam : Qc) :
  s <> Q2Qc 0 -> lam <> Q2Qc 0 -> Qcdiv s (Qcmult s lam) = Qcinv lam.
Proof. intros Hs Hlam. field. split; assumption. Qed.

Lemma Qc_residual_cancels (x lam : Qc) :
  lam <> Q2Qc 0 ->
  Qcplus x (Qcmult (Qcmult x lam) (Qcopp (Qcinv lam))) = Q2Qc 0.
Proof. intros Hlam. field. assumption. Qed.

Lemma exact_residual_cancels (b : Vector exact.t) (lam : exact.t) :
  lam <> Q2Qc 0 ->
  Add b (Scale (Scale b lam) (fneg (Qcinv lam))) = make (length b).
Proof.
  intros Hlam. induction b as [|x b IH]; [reflexivity|].
  change (fadd x (fmul (fmul x lam) (fneg (Qcinv lam)))
          :: Add b (Scale (Scale b lam) (fneg (Qcinv lam)))
          = fzero :: make (length b)).
  f_equal; [now apply Qc_residual_cancels | exact IH].
Qed.

(** X13.  With rationals: if [t] maps [b] to a multiple [lam * b] of
    it, [lam] not zero, then [Solve] returns [b / lam], the solution of
    the system, after at most one pass through the loop -- whatever
    [t] does to other vectors. *)
Theorem eigenvector_rhs_solved_in_one_pass
  (t : LinTran exact.t) (b : Vector exact.t) (lam : exact.t)
  (Hlam : lam <> Q2Qc 0)
  (Hb : length b = Dim t)
  (Heig : Apply t b = Scale b lam) :
  Solve t b = Scale b (Qcinv lam) /\
  snd (fst (run t b fzero nilChan)) <= 1.
Proof.
  unfold Solve, SolvePrec, SolveStoppable.
  destruct (fle (greatestValue b) fzero) eqn:Hconv.
  - assert (Hb0 : b = make (Dim t))
      by (rewrite <- Hb; now apply exact_converged_zero).
    assert (Hz : allZero b = true).
    { rewrite Hb0. now apply allZero_make. }
    rewrite (@run_zero_rhs _ _ exact_abs_of_zero eq_refl eq_refl t b Hz).
    simpl snd. simpl fst. split; [|lia].
    rewrite Hb0 at 2. now rewrite (Scale_make exact_idealArithmetic).
  - assert (Hz : allZero b = false).
    { apply (@not_converged_not_allZero _ _ exact_abs_of_zero eq_refl)
        with (prec := fzero); [reflexivity | exact Hconv]. }
    set (d := direction 0 (init t b)).
    set (st1 := advance t b 0 d).
    assert (Hod : optimalDistance t d = Qcinv lam).
    { unfold optimalDistance, d. simpl conjVec. simpl residual.
      unfold Copy. rewrite Heig, (Dot_Scale_r exact_idealArithmetic).
      apply Qc_step_size; [|exact Hlam].
      apply not_eq_sym, Qclt_not_eq. now apply exact_Dot_self. }
    assert (Hsol : solution st1 = Scale b (Qcinv lam)).
    { change (solution st1)
        with (Add (make (Dim t)) (Scale b (optimalDistance t d))).
      rewrite Hod, <- Hb.
      rewrite <- (Scale_length b (Qcinv lam)) at 1.
      apply (Add_make_l exact_idealArithmetic). }
    assert (Hres : residual st1 = make (length b)).
    { change (residual st1)
        with (Add b (Scale (Apply t b) (fneg (optimalDistance t d)))).
      rewrite Hod, Heig. now apply exact_residual_cancels. }
    assert (Hb0 : body t b fzero nilChan 0 (init t b) = Next st1).
    { unfold body. change (residual (init t b)) with b.
      rewrite Hconv. fold d. change (conjVec d) with b. now rewrite Hz. }
    assert (Hb1 : body t b fzero nilChan 1 st1 = Break Converged st1).
    { apply body_converged. rewrite Hres.
      assert (Hzm : allZero (make (F:=exact.t) (length b)) = true)
        by (apply allZero_make; reflexivity).
      now rewrite (@allZero_greatestValue _ _ exact_abs_of_zero eq_refl
                     _ Hzm). }
    unfold run. destruct (Dim t) as [|[|n]] eqn:Hn.
    + destruct b; [discriminate Hz | discriminate Hb].
    + rewrite loop_S, Hb0. simpl. split; [exact Hsol | lia].
    + rewrite loop_S, Hb0, loop_S, Hb1. simpl. split; [exact Hsol | lia].
Qed.

Lemma eigenvector_rhs_solved_in_one_pass_witness :
  let t := MatTran [[exact.ofZ 2; exact.ofZ 0; exact.ofZ 0];
                    [exact.ofZ 0; exact.ofZ 4; exact.ofZ 1];
                    [exact.ofZ 0; exact.ofZ 1; exact.ofZ 3]] in
  let b := [exact.ofZ 5; exact.ofZ 0; exact.ofZ 0] in
  let lam := exact.ofZ 2 in
  lam <> Q2Qc 0 /\ length b = Dim t /\ Apply t b = Scale b lam /\
  Solve t b = Scale b (Qcinv lam).
Proof.
  intros t b lam.
  assert (Hlam : lam <> Q2Qc 0).
  { intros E. apply (f_equal this) in E. vm_compute in E. discriminate. }
  assert (Heig : Apply t b = Scale b lam) by exact_vector.
  split; [exact Hlam|]. split; [reflexivity|]. split; [exact Heig|].
  apply (@eigenvector_rhs_solved_in_one_pass t b lam Hlam eq_refl Heig).
Defined.

(** ** The coefficient of the direction update *)

Lemma float64_opp_round_aux (s : bool) (m e : Z) (l : location) :
  SFopp (binary_round_aux float64.prec float64.emax s m e l)
  = binary_round_aux float64.prec float64.emax (negb s) m e l.
Proof.
  unfold binary_round_aux.
  destruct (shr_fexp float64.prec float64.emax m e l) as [mrs e'].
  destruct (shr_fexp float64.prec float64.emax _ e' loc_Exact)
    as [mrs'' e''].
  destruct (shr_m mrs''); try reflexivity.
  destruct (Z.leb e'' (float64.emax - float64.prec)); reflexivity.
Qed.

(** Negating the dividend negates the quotient, exactly. *)
Lemma float64_opp_div_opp (x y : float64.t) :
  fneg (fdiv (fneg x) y) = fdiv x y.
Proof.
  destruct x as [sx|sx| |sx mx ex], y as [sy|sy| |sy my ey]; simpl;
    try reflexivity; try (now destruct sx, sy).
  destruct (SFdiv_core_binary float64.prec float64.emax
              (Z.pos mx) ex (Z.pos my) ey) as [[mz ez] lz].
  rewrite float64_opp_round_aux. now destruct sx, sy.
Qed.

Lemma Qc_opp_div_opp (x y : Qc) :
  Qcopp (Qcdiv (Qcopp x) y) = Qcdiv x y.
Proof. unfold Qcdiv. ring. Qed.

Lemma exact_opp_div_opp (x y : exact.t) :
  fneg (fdiv (fneg x) y) = fdiv x y.
Proof. exact (Qc_opp_div_opp x y). Qed.

(** X14.  In [float64] as with rationals, the two negations of lines 44
    and 46 cancel without rounding: after the first pass the new
    direction is [residual + (residualDot / lastResidualDot) *
    conjVec], the Fletcher-Reeves update. *)
Theorem direction_coefficient_is_ratio :
  (forall (i : nat) (st : state (F:=float64.t)),
      i <> 0 ->
      conjVec (direction i st)
      = Add (residual st)
            (Scale (conjVec st)
                   (fdiv (Dot (residual st) (residual st))
                         (lastResidualDot st)))) /\
  (forall (i : nat) (st : state (F:=exact.t)),
      i <> 0 ->
      conjVec (direction i st)
      = Add (residual st)
            (Scale (conjVec st)
                   (fdiv (Dot (residual st) (residual st))
                         (lastResidualDot st)))).
Proof.
  split; intros i st Hi; unfold direction;
    destruct (Nat.eqb_spec i 0); try contradiction;
    cbn [conjVec]; unfold Copy.
  - now rewrite float64_opp_div_opp.
  - now rewrite exact_opp_div_opp.
Qed.

Lemma direction_coefficient_is_ratio_witness :
  let t := MatTran [[float64.ofZ 4; float64.ofZ 1];
                    [float64.ofZ 1; float64.ofZ 3]] in
  let b := [float64.ofZ 1; float64.ofZ 2] in
  exists st,
    stateAt t b fzero nilChan 1 = Some st /\
    conjVec (direction 1 st)
    = Add (residual st)
          (Scale (conjVec st)
                 (fdiv (Dot (residual st) (residual st))
                       (lastResidualDot st))).
Proof.
  intros t b. eexists. split; [vm_compute; reflexivity|].
  apply (proj1 direction_coefficient_is_ratio 1). discriminate.
Defined.

(** ** The operator applications of a call *)

Section Applications.
Context {F : Type} `{Scalar F}.
Variable t : LinTran F.
Variable b : Vector F.
Variable prec : F.
Variable c : chan.

Lemma loop_index_le (fuel : nat) :
  forall i st, i <= snd (fst (loop t b prec c fuel i st)).
Proof.
  induction fuel as [|fuel IH]; intros i st; [simpl; lia|].
  rewrite loop_S. destruct (body t b prec c i st) as [e st'|st'|st'];
    [simpl; lia | simpl; lia |].
  specialize (IH (S i) st'). lia.
Qed.

Lemma applications_count (fuel : nat) :
  forall i st,
    length (applications t b prec c fuel i st)
    = 2 * (snd (fst (loop t b prec c fuel i st)) - i).
Proof.
  induction fuel as [|fuel IH]; intros i st; [simpl; lia|].
  rewrite loop_S. cbn [applications].
  destruct (body t b prec c i st) as [e st'|st'|st'];
    [cbn [length fst snd]; lia
    | unfold applied; cbn [length fst snd]; lia |].
  rewrite length_app, IH.
  pose proof (loop_index_le fuel (S i) st').
  unfold applied. cbn [length]. lia.
Qed.

Hypothesis Apply_length :
  forall v, length v = Dim t -> length (Apply t v) = Dim t.

Lemma applications_lengths (fuel : nat) :
  forall i st,
    length (solution st) = Dim t -> length (residual st) = Dim t ->
    Forall (fun v => length v = Dim t)
           (applications t b prec c fuel i st).
Proof.
  induction fuel as [|fuel IH]; intros i st Hsol Hres; [constructor|].
  cbn [applications].
  assert (Hcv : length (conjVec (direction i st)) = Dim t)
    by now rewrite direction_conjVec_length.
  assert (Hsol' : length (solution (advance t b i (direction i st)))
                  = Dim t)
    by now rewrite advance_solution_length, direction_solution.
  assert (Happ : Forall (fun v => length v = Dim t)
                        (applied t b i (direction i st))).
  { unfold applied. repeat constructor; [exact Hcv|].
    destruct (recompute i); assumption. }
  destruct (body t b prec c i st) as [e st'|st'|st'] eqn:Hb;
    [constructor | exact Happ |].
  destruct (body_Next_inv _ _ _ _ _ _ Hb) as (_ & _ & _ & ->).
  apply Forall_app. split; [exact Happ|].
  apply IH; [exact Hsol'|].
  simpl residual. destruct (recompute i); rewrite Add_length.
  - rewrite Scale_length. now apply Apply_length.
  - now rewrite direction_residual.
Qed.

End Applications.

(** X15.  A call applies the operator exactly twice for every pass that
    runs through to the [select], and not at all in a pass that breaks:
    [2 * k] applications for [k] such passes, so never more than
    [2 * t.Dim()]. *)
Theorem operator_applied_twice_per_pass {F : Type} `{Scalar F}
  (t : LinTran F) (b : Vector F) (prec : F) (c : chan) :
  length (applications t b prec c (Dim t) 0 (init t b))
  = 2 * snd (fst (run t b prec c)) /\
  length (applications t b prec c (Dim t) 0 (init t b)) <= 2 * Dim t.
Proof.
  assert (Hcount : length (applications t b prec c (Dim t) 0 (init t b))
                   = 2 * snd (fst (run t b prec c))).
  { rewrite applications_count. unfold run. lia. }
  split; [exact Hcount|]. rewrite Hcount.
  pose proof (loop_passes t b prec c (Dim t) 0 (init t b)) as Hp.
  fold (run t b prec c) in Hp.
  destruct (run t b prec c) as [[e k] st]. destruct e; simpl in *; lia.
Qed.

(** X16.  If the operator maps vectors of its dimension to vectors of
    its dimension and [b] has that dimension, then every vector the
    call hands to [t.Apply] has that dimension. *)
Theorem operator_applied_to_its_dimension {F : Type} `{Scalar F}
  (t : LinTran F) (b : Vector F) (prec : F) (c : chan)
  (Hlen : forall v, length v = Dim t -> length (Apply t v) = Dim t)
  (Hb : length b = Dim t) :
  Forall (fun v => length v = Dim t)
         (applications t b prec c (Dim t) 0 (init t b)).
Proof.
  apply applications_lengths; [exact Hlen | apply repeat_length | exact Hb].
Qed.

Lemma operator_applied_to_its_dimension_witness :
  let t := MatTran [[float64.ofZ 4; float64.ofZ 1];
                    [float64.ofZ 1; float64.ofZ 3]] in
  let b := [float64.ofZ 1; float64.ofZ 2] in
  (forall v, length v = Dim t -> length (Apply t v) = Dim t) /\
  length b = Dim t /\
  length (applications t b fzero nilChan (Dim t) 0 (init t b)) = 4 /\
  Forall (fun v => length v = Dim t)
         (applications t b fzero nilChan (Dim t) 0 (init t b)).
Proof.
  intros t b.
  assert (Hlen : forall v, length v = Dim t -> length (Apply t v) = Dim t).
  { intros v _. apply length_map. }
  split; [exact Hlen|]. split; [reflexivity|].
  split; [vm_compute; reflexivity|].
  exact (@operator_applied_to_its_dimension _ _ t b fzero nilChan
           Hlen eq_refl).
Defined.
